(** * XDB-Node client: stream framing and request/response correlation

    A shallow embedding of [src/xdb-client.ts] (class [XDBClient]):
    the stream buffer, the FIFO of pending resolvers, the socket event
    handlers registered by [connect()], [sendCommand], [update], [upsert]
    and the other request methods, and [close()].

    JavaScript strings are sequences of UTF-16 code units; a [Buffer] is a
    sequence of bytes.  Promises are identified by the order in which
    [sendCommand] creates them, and every call of a promise's [resolve] or
    [reject], every console line and every socket write is recorded as an
    effect, in program order.  [connect()] is taken to be called once on
    a client, so that each listener is registered once; the clock of the
    log lines is left out.  [close()], which waits for a promise, is
    modelled by sessions, on top of the runs of the client. *)

From Stdlib Require Import Ascii String DecimalString.
From Stdlib Require Import List NArith ZArith Bool Lia Sorted.
Import ListNotations.

(** ** JavaScript strings *)

Module JsString.

(** A string value: its UTF-16 code units. *)
Definition t := list N.

Definition of_ascii (s : string) : t :=
  map N_of_ascii (list_ascii_of_string s).

(** The line feed, the protocol delimiter ['\n']. *)
Definition LF : N := 10%N.

(** [s.split('\n')]: the substrings between line feeds.  The result is
    never empty; [''.split('\n')] is [['']]. *)
Fixpoint split (s : t) : list t :=
  match s with
  | [] => [[]]
  | c :: s' =>
      if N.eqb c LF then [] :: split s'
      else match split s' with
           | [] => [[c]]
           | l :: ls => (c :: l) :: ls
           end
  end.

(** [lines.join('\n')], the inverse of [split]. *)
Fixpoint join (ls : list t) : t :=
  match ls with
  | [] => []
  | [l] => l
  | l :: ls' => l ++ LF :: join ls'
  end.

(** ECMAScript WhiteSpace and LineTerminator code units, the ones
    [String.prototype.trim] strips. *)
Definition is_white_space (c : N) : bool :=
  (N.eqb c 9 || N.eqb c 10 || N.eqb c 11 || N.eqb c 12 || N.eqb c 13
   || N.eqb c 32 || N.eqb c 160 || N.eqb c 5760
   || (N.leb 8192 c && N.leb c 8202)
   || N.eqb c 8232 || N.eqb c 8233 || N.eqb c 8239 || N.eqb c 8287
   || N.eqb c 12288 || N.eqb c 65279)%N.

Fixpoint trim_start (s : t) : t :=
  match s with
  | [] => []
  | c :: s' => if is_white_space c then trim_start s' else s
  end.

Definition trim_end (s : t) : t := rev (trim_start (rev s)).

(** [s.trim()]. *)
Definition trim (s : t) : t := trim_end (trim_start s).

Definition is_empty (s : t) : bool :=
  match s with [] => true | _ => false end.

(** [line.trim() === '']. *)
Definition is_blank (s : t) : bool := is_empty (trim s).

(** [x || ''] for an optional string [x]: [undefined] and [''] are the
    falsy cases. *)
Definition or_empty (x : option t) : t :=
  match x with
  | Some s => if is_empty s then [] else s
  | None => []
  end.

End JsString.

(** ** Arrays *)

Module JsArray.

(** [Array.prototype.pop]: the last element (if any) and the array that
    is left. *)
Definition pop {A} (l : list A) : option A * list A :=
  match l with
  | [] => (None, [])
  | x :: l' => (Some (last l' x), removelast l)
  end.

(** [Array.prototype.shift]: the first element (if any) and the array
    that is left. *)
Definition shift {A} (l : list A) : option A * list A :=
  match l with
  | [] => (None, [])
  | x :: l' => (Some x, l')
  end.

End JsArray.

(** ** Buffers *)

Module Buffer.

(** A [Buffer]: its bytes, each below 256. *)
Definition t := list N.

Local Open Scope N_scope.

(** U+FFFD, which the decoder emits for every ill-formed byte sequence. *)
Definition REPLACEMENT : N := 65533.

Definition in_range (lo hi b : N) : bool := (lo <=? b) && (b <=? hi).

Definition is_continuation (b : N) : bool := in_range 128 191 b.

(** The payload bits of a continuation byte. *)
Definition low6 (b : N) : N := b - 128.

(** The UTF-16 code units of a scalar value above the basic plane. *)
Definition surrogates (cp : N) : list N :=
  let c := cp - 65536 in [55296 + c / 1024; 56320 + c mod 1024].

(** [chunk.toString()], that is [chunk.toString('utf8')]: UTF-8 decoding
    of this buffer alone.  A sequence that is ill-formed or cut off by
    the end of the buffer becomes U+FFFD; decoding keeps no state from
    one buffer to the next. *)
Fixpoint toString (bs : t) : JsString.t :=
  match bs with
  | [] => []
  | b :: r0 =>
      if b <? 128 then b :: toString r0
      else if in_range 194 223 b then
        match r0 with
        | [] => [REPLACEMENT]
        | c1 :: r1 =>
            if is_continuation c1
            then ((b - 192) * 64 + low6 c1) :: toString r1
            else REPLACEMENT :: toString r0
        end
      else if in_range 224 239 b then
        let lo := if b =? 224 then 160 else 128 in
        let hi := if b =? 237 then 159 else 191 in
        match r0 with
        | [] => [REPLACEMENT]
        | c1 :: r1 =>
            if in_range lo hi c1 then
              match r1 with
              | [] => [REPLACEMENT]
              | c2 :: r2 =>
                  if is_continuation c2
                  then ((b - 224) * 4096 + low6 c1 * 64 + low6 c2)
                         :: toString r2
                  else REPLACEMENT :: toString r1
              end
            else REPLACEMENT :: toString r0
        end
      else if in_range 240 244 b then
        let lo := if b =? 240 then 144 else 128 in
        let hi := if b =? 244 then 143 else 191 in
        match r0 with
        | [] => [REPLACEMENT]
        | c1 :: r1 =>
            if in_range lo hi c1 then
              match r1 with
              | [] => [REPLACEMENT]
              | c2 :: r2 =>
                  if is_continuation c2 then
                    match r2 with
                    | [] => [REPLACEMENT]
                    | c3 :: r3 =>
                        if is_continuation c3
                        then surrogates ((b - 240) * 262144 + low6 c1 * 4096
                                         + low6 c2 * 64 + low6 c3)
                               ++ toString r3
                        else REPLACEMENT :: toString r2
                    end
                  else REPLACEMENT :: toString r1
              end
            else REPLACEMENT :: toString r0
        end
      else REPLACEMENT :: toString r0
  end.

(** [Buffer.from(s)] for a string of ASCII characters. *)
Definition of_ascii (s : string) : t := JsString.of_ascii s.

Definition is_ascii (bs : t) : bool := forallb (fun b => b <? 128) bs.

End Buffer.

(** ** JSON values, [JSON.parse] and [JSON.stringify] *)

Module Json.

Local Open Scope N_scope.

(** A JSON value.  A number [JNumber m e] is the exact decimal
    [m * 10^e], kept without trailing zeros in [m]; rounding to a
    binary64 double is not modelled. *)
#[warnings="-register-all"] Inductive value : Type :=
| JNull
| JBool (b : bool)
| JNumber (m e : Z)
| JString (s : JsString.t)
| JArray (items : list value)
| JObject (members : list (JsString.t * value)).

Definition str (s : string) : JsString.t := JsString.of_ascii s.

Fixpoint string_eqb (a b : JsString.t) : bool :=
  match a, b with
  | [], [] => true
  | x :: a', y :: b' => (x =? y) && string_eqb a' b'
  | _, _ => false
  end.

(** Property lookup, [obj[k]] on own properties. *)
Fixpoint get (k : JsString.t) (ms : list (JsString.t * value)) : option value :=
  match ms with
  | [] => None
  | (k', v) :: ms' => if string_eqb k k' then Some v else get k ms'
  end.

(** Property definition: a repeated key keeps its place and takes the
    new value. *)
Fixpoint set (k : JsString.t) (v : value) (ms : list (JsString.t * value)) :=
  match ms with
  | [] => [(k, v)]
  | (k', v') :: ms' =>
      if string_eqb k k' then (k, v) :: ms' else (k', v') :: set k v ms'
  end.

(** *** Parsing *)

Definition is_ws (c : N) : bool :=
  (c =? 32) || (c =? 9) || (c =? 10) || (c =? 13).

Fixpoint skip_ws (s : JsString.t) : JsString.t :=
  match s with
  | [] => []
  | c :: r => if is_ws c then skip_ws r else s
  end.

Fixpoint strip_prefix (p s : JsString.t) : option JsString.t :=
  match p, s with
  | [], _ => Some s
  | a :: p', b :: s' => if a =? b then strip_prefix p' s' else None
  | _ :: _, [] => None
  end.

Definition is_digit (c : N) : bool := (48 <=? c) && (c <=? 57).

Fixpoint take_digits (s : JsString.t) : list N * JsString.t :=
  match s with
  | [] => ([], [])
  | c :: r =>
      if is_digit c
      then let '(ds, r') := take_digits r in (c - 48 :: ds, r')
      else ([], s)
  end.

Definition digits_value (ds : list N) : Z :=
  fold_left (fun acc d => acc * 10 + Z.of_N d)%Z ds 0%Z.

Fixpoint strip_zeros (fuel : nat) (m e : Z) : Z * Z :=
  match fuel with
  | O => (m, e)
  | S fuel' =>
      if (m =? 0)%Z then (0, 0)%Z
      else if (Z.rem m 10 =? 0)%Z then strip_zeros fuel' (Z.quot m 10) (e + 1)%Z
      else (m, e)
  end.

Definition number (digits : nat) (m e : Z) : value :=
  let '(m', e') := strip_zeros (S digits) m e in JNumber m' e'.

Definition hex_value (c : N) : option N :=
  if is_digit c then Some (c - 48)
  else if (97 <=? c) && (c <=? 102) then Some (c - 87)
  else if (65 <=? c) && (c <=? 70) then Some (c - 55)
  else None.

(** The character an escape [\e] stands for ([\u] apart). *)
Definition unescape (e : N) : option N :=
  if (e =? 34) || (e =? 92) || (e =? 47) then Some e
  else if e =? 98 then Some 8
  else if e =? 102 then Some 12
  else if e =? 110 then Some 10
  else if e =? 114 then Some 13
  else if e =? 116 then Some 9
  else None.

Definition cons_fst {A B} (a : A) (r : option (list A * B)) : option (list A * B) :=
  match r with
  | Some (l, b) => Some (a :: l, b)
  | None => None
  end.

(** The characters of a string literal after its opening quote, and
    what follows the closing quote. *)
Fixpoint parse_string_body (s : JsString.t) : option (JsString.t * JsString.t) :=
  match s with
  | [] => None
  | c :: r =>
      if c =? 34 then Some ([], r)
      else if c =? 92 then
        match r with
        | [] => None
        | e :: r1 =>
            if e =? 117 then
              match r1 with
              | h1 :: h2 :: h3 :: h4 :: r2 =>
                  match hex_value h1, hex_value h2, hex_value h3, hex_value h4 with
                  | Some a, Some b, Some c', Some d =>
                      cons_fst (a * 4096 + b * 256 + c' * 16 + d)
                               (parse_string_body r2)
                  | _, _, _, _ => None
                  end
              | _ => None
              end
            else
              match unescape e with
              | Some u => cons_fst u (parse_string_body r1)
              | None => None
              end
        end
      else if c <? 32 then None
      else cons_fst c (parse_string_body r)
  end.

Definition parse_int_part (s : JsString.t) : option (list N * JsString.t) :=
  match s with
  | [] => None
  | c :: r =>
      if c =? 48 then Some ([0], r)
      else if is_digit c then Some (take_digits s)
      else None
  end.

Definition parse_frac (s : JsString.t) : option (list N * JsString.t) :=
  match s with
  | [] => Some ([], [])
  | c :: r =>
      if c =? 46 then
        match take_digits r with
        | ([], _) => None
        | p => Some p
        end
      else Some ([], s)
  end.

Definition parse_sign (s : JsString.t) : bool * JsString.t :=
  match s with
  | [] => (false, [])
  | c :: r =>
      if c =? 45 then (true, r) else if c =? 43 then (false, r) else (false, s)
  end.

Definition parse_exp (s : JsString.t) : option (Z * JsString.t) :=
  match s with
  | [] => Some (0%Z, [])
  | c :: r =>
      if (c =? 101) || (c =? 69) then
        let '(neg, r1) := parse_sign r in
        match take_digits r1 with
        | ([], _) => None
        | (ds, r2) =>
            let v := digits_value ds in
            Some (if neg then (- v)%Z else v, r2)
        end
      else Some (0%Z, s)
  end.

Definition parse_number (s : JsString.t) : option (value * JsString.t) :=
  let '(neg, s1) :=
    match s with
    | c :: r => if c =? 45 then (true, r) else (false, s)
    | [] => (false, [])
    end in
  match parse_int_part s1 with
  | None => None
  | Some (ip, s2) =>
      match parse_frac s2 with
      | None => None
      | Some (fp, s3) =>
          match parse_exp s3 with
          | None => None
          | Some (x, s4) =>
              let m := digits_value (ip ++ fp) in
              Some (number (length (ip ++ fp))
                           (if neg then (- m)%Z else m)
                           (x - Z.of_nat (length fp))%Z, s4)
          end
      end
  end.

Definition literal (rest : string) (v : value) (r : JsString.t) :=
  match strip_prefix (str rest) r with
  | Some r' => Some (v, r')
  | None => None
  end.

Fixpoint parse_value (fuel : nat) (s : JsString.t) {struct fuel}
  : option (value * JsString.t) :=
  match fuel with
  | O => None
  | S fuel' =>
      match skip_ws s with
      | [] => None
      | c :: r =>
          if c =? 34 then
            match parse_string_body r with
            | Some (k, r') => Some (JString k, r')
            | None => None
            end
          else if c =? 91 then
            match skip_ws r with
            | [] => None
            | c' :: r' =>
                if c' =? 93 then Some (JArray [], r')
                else match parse_elements fuel' r with
                     | Some (vs, r'') => Some (JArray vs, r'')
                     | None => None
                     end
            end
          else if c =? 123 then
            match skip_ws r with
            | [] => None
            | c' :: r' =>
                if c' =? 125 then Some (JObject [], r')
                else match parse_members fuel' r with
                     | Some (ms, r'') =>
                         Some (JObject (fold_left (fun o kv => set (fst kv) (snd kv) o) ms []), r'')
                     | None => None
                     end
            end
          else if c =? 110 then literal "ull" JNull r
          else if c =? 116 then literal "rue" (JBool true) r
          else if c =? 102 then literal "alse" (JBool false) r
          else parse_number (c :: r)
      end
  end

with parse_elements (fuel : nat) (s : JsString.t) {struct fuel}
  : option (list value * JsString.t) :=
  match fuel with
  | O => None
  | S fuel' =>
      match parse_value fuel' s with
      | None => None
      | Some (v, r) =>
          match skip_ws r with
          | [] => None
          | c :: r' =>
              if c =? 44 then cons_fst v (parse_elements fuel' r')
              else if c =? 93 then Some ([v], r')
              else None
          end
      end
  end

with parse_members (fuel : nat) (s : JsString.t) {struct fuel}
  : option (list (JsString.t * value) * JsString.t) :=
  match fuel with
  | O => None
  | S fuel' =>
      match skip_ws s with
      | [] => None
      | c :: r =>
          if c =? 34 then
            match parse_string_body r with
            | None => None
            | Some (k, r1) =>
                match skip_ws r1 with
                | [] => None
                | c1 :: r2 =>
                    if c1 =? 58 then
                      match parse_value fuel' r2 with
                      | None => None
                      | Some (v, r3) =>
                          match skip_ws r3 with
                          | [] => None
                          | c3 :: r4 =>
                              if c3 =? 44
                              then cons_fst (k, v) (parse_members fuel' r4)
                              else if c3 =? 125 then Some ([(k, v)], r4)
                              else None
                          end
                      end
                    else None
                end
            end
          else None
      end
  end.

(** [JSON.parse(text)]: [None] where it throws a [SyntaxError].  The
    fuel bounds the nesting of arrays and objects by the length of the
    text. *)
Definition parse (s : JsString.t) : option value :=
  match parse_value (S (length s)) s with
  | Some (v, r) => if JsString.is_empty (skip_ws r) then Some v else None
  | None => None
  end.

(** *** Serialising *)

Definition decimal (n : N) : JsString.t :=
  str (NilEmpty.string_of_uint (N.to_uint n)).

Definition hex_digit (d : N) : N := if d <? 10 then 48 + d else 87 + d.

(** The escape [\uXXXX] of a code unit. *)
Definition unicode_escape (c : N) : JsString.t :=
  [92; 117; hex_digit (c / 4096); hex_digit (c / 256 mod 16);
   hex_digit (c / 16 mod 16); hex_digit (c mod 16)].

Definition is_high_surrogate (c : N) : bool := (55296 <=? c) && (c <=? 56319).
Definition is_low_surrogate (c : N) : bool := (56320 <=? c) && (c <=? 57343).

Definition quote_unit (c : N) : JsString.t :=
  if (c =? 34) || (c =? 92) then [92; c]
  else if c =? 8 then [92; 98]
  else if c =? 12 then [92; 102]
  else if c =? 10 then [92; 110]
  else if c =? 13 then [92; 114]
  else if c =? 9 then [92; 116]
  else if (c <? 32) || is_low_surrogate c || is_high_surrogate c
  then unicode_escape c
  else [c].

Fixpoint quote_units (s : JsString.t) : JsString.t :=
  match s with
  | [] => []
  | c :: r =>
      match r with
      | d :: r' =>
          if is_high_surrogate c && is_low_surrogate d
          then c :: d :: quote_units r'
          else quote_unit c ++ quote_units r
      | [] => quote_unit c
      end
  end.

(** A string literal for [s]. *)
Definition quote (s : JsString.t) : JsString.t := 34 :: quote_units s ++ [34].

(** The decimal print of the number [m * 10^e] (with [m] free of
    trailing zeros): plain digits between 1e-6 and 1e21, exponent
    notation outside. *)
Definition number_to_string (m e : Z) : JsString.t :=
  if (m =? 0)%Z then str "0"
  else
    let sign := if (m <? 0)%Z then str "-" else [] in
    let ds := decimal (Z.to_N (Z.abs m)) in
    let k := Z.of_nat (length ds) in
    let n := (k + e)%Z in
    sign ++
    (if ((k <=? n) && (n <=? 21))%Z then ds ++ repeat 48 (Z.to_nat (n - k))
     else if ((0 <? n) && (n <=? 21))%Z
     then firstn (Z.to_nat n) ds ++ 46 :: skipn (Z.to_nat n) ds
     else if ((-6 <? n) && (n <=? 0))%Z
     then 48 :: 46 :: repeat 48 (Z.to_nat (- n)) ++ ds
     else
       let x := (n - 1)%Z in
       let exponent :=
         101 :: (if (x <? 0)%Z then 45 else 43) :: decimal (Z.to_N (Z.abs x)) in
       match ds with
       | [d] => d :: exponent
       | d :: ds' => d :: 46 :: ds' ++ exponent
       | [] => []
       end).

Definition commas (parts : list JsString.t) : JsString.t :=
  match parts with
  | [] => []
  | p :: ps => p ++ flat_map (fun x => 44 :: x) ps
  end.

(** [JSON.stringify(v)]. *)
Fixpoint stringify (v : value) : JsString.t :=
  match v with
  | JNull => str "null"
  | JBool true => str "true"
  | JBool false => str "false"
  | JNumber m e => number_to_string m e
  | JString s => quote s
  | JArray items => 91 :: commas (map stringify items) ++ [93]
  | JObject members =>
      123 :: commas (map (fun kv => quote (fst kv) ++ 58 :: stringify (snd kv))
                         members) ++ [125]
  end.

End Json.

(** ** The client *)

Import Json.

Definition DEFAULT_HOST : JsString.t := str "127.0.0.1".
Definition FIXED_PORT : N := 8080.

Inductive LogLevel : Type := INFO | WARN | ERROR.

(** An error object, as far as the client looks at it: [err.code] and
    [err.message]. *)
Record JsError : Type := { code : option JsString.t; message : JsString.t }.

(** [new Error(message)]. *)
Definition Error (msg : string) : JsError :=
  {| code := None; message := str msg |}.

(** A queue entry [{ resolve, reject }], named by the promise the two
    functions belong to: [sendCommand] creates promise 0, 1, 2, ... *)
Definition ResponseResolver : Type := nat.

(** What is handed to the console: the formatted line (its time stamp and
    colours left out) or the [details] value. *)
Inductive ConsoleArg : Type :=
| Formatted (level : LogLevel) (text : JsString.t)
| Details (details : value).

(** The calls the client makes on the outside world. *)
Inductive Effect : Type :=
| Resolve (p : ResponseResolver) (json : value)
| Reject (p : ResponseResolver) (err : JsError)
| ConnectResolve
| ConnectReject (err : JsError)
| ConsoleError (arg : ConsoleArg)
| ConsoleLog (arg : ConsoleArg)
| SocketWrite (text : JsString.t).

Record XDBClient : Type := {
  host : JsString.t;
  isConnected : bool;
  responseQueue : list ResponseResolver;
  streamBuffer : JsString.t
}.

Definition set_isConnected (b : bool) (c : XDBClient) : XDBClient :=
  {| host := host c; isConnected := b;
     responseQueue := responseQueue c; streamBuffer := streamBuffer c |}.

Definition set_responseQueue (q : list ResponseResolver) (c : XDBClient) : XDBClient :=
  {| host := host c; isConnected := isConnected c;
     responseQueue := q; streamBuffer := streamBuffer c |}.

Definition set_streamBuffer (b : JsString.t) (c : XDBClient) : XDBClient :=
  {| host := host c; isConnected := isConnected c;
     responseQueue := responseQueue c; streamBuffer := b |}.

(** [new XDBClient(options)]: [options.host || DEFAULT_HOST]. *)
Definition new_XDBClient (options_host : option JsString.t) : XDBClient :=
  {| host := match options_host with
             | Some h => if JsString.is_empty h then DEFAULT_HOST else h
             | None => DEFAULT_HOST
             end;
     isConnected := false; responseQueue := []; streamBuffer := [] |}.

(** [typeof v === 'object']. *)
Definition typeof_object (v : value) : bool :=
  match v with
  | JNull | JArray _ | JObject _ => true
  | _ => false
  end.

(** Truthiness of a value, for [if (details)]. *)
Definition truthy (v : value) : bool :=
  match v with
  | JNull => false
  | JBool b => b
  | JNumber m _ => negb (m =? 0)%Z
  | JString s => negb (JsString.is_empty s)
  | JArray _ | JObject _ => true
  end.

(** [this.log(level, message, details)]: errors go to [console.error],
    the rest to [console.log]; the details follow when given and truthy. *)
Definition log (level : LogLevel) (text : JsString.t) (details : option value)
  : list Effect :=
  let extra := match details with
               | Some d => if truthy d then [Details d] else []
               | None => []
               end in
  match level with
  | ERROR => map ConsoleError (Formatted level text :: extra)
  | _ => map ConsoleLog (Formatted level text :: extra)
  end.

(** A loop [for (const x of xs) body] over a state, collecting the
    effects in order. *)
Fixpoint for_each {S A} (body : S -> A -> S * list Effect) (s : S) (xs : list A)
  : S * list Effect :=
  match xs with
  | [] => (s, [])
  | x :: xs' =>
      let '(s1, e1) := body s x in
      let '(s2, e2) := for_each body s1 xs' in
      (s2, e1 ++ e2)
  end.

Definition not_connected_error : JsError :=
  Error "Client is not connected to XDB Server.".

Definition malformed_error : JsError :=
  Error "Critical: Malformed JSON received.".

Definition ECONNREFUSED : JsString.t := str "ECONNREFUSED".

Definition code_is (err : JsError) (c : JsString.t) : bool :=
  match code err with
  | Some c' => string_eqb c' c
  | None => false
  end.

(** The text [host:port] of the log lines. *)
Definition endpoint (c : XDBClient) : JsString.t :=
  host c ++ str ":" ++ decimal FIXED_PORT.

Section Client.

(** [JSON.parse] ([None] where it throws) and [JSON.stringify]; the
    handlers are stated for any pair, [Json.parse] and [Json.stringify]
    being one. *)
Variable JSON_parse : JsString.t -> option value.
Variable JSON_stringify : value -> JsString.t.

(** The body of the loop of [handleStreamData] for a line that is not
    blank: the oldest resolver, if there is one, gets the parsed line or
    the malformed-JSON error. *)
Definition handleMessage (c : XDBClient) (line : JsString.t)
  : XDBClient * list Effect :=
  let '(resolver, queue) := JsArray.shift (responseQueue c) in
  let c1 := set_responseQueue queue c in
  match resolver with
  | Some p =>
      match JSON_parse line with
      | Some json => (c1, [Resolve p json])
      | None =>
          (c1,
           log ERROR (str "Protocol violation: Malformed JSON received.")
               (Some (JObject [(str "raw", JString line)]))
           ++ [Reject p malformed_error])
      end
  | None => (c1, [])
  end.

(** The body of the loop: [if (line.trim() === '') continue;] first. *)
Definition handleLine (c : XDBClient) (line : JsString.t)
  : XDBClient * list Effect :=
  if JsString.is_blank line then (c, []) else handleMessage c line.

(** [handleStreamData(chunk)]. *)
Definition handleStreamData (c : XDBClient) (chunk : JsString.t)
  : XDBClient * list Effect :=
  let buffer := streamBuffer c ++ chunk in
  let '(final, lines) := JsArray.pop (JsString.split buffer) in
  let c1 := set_streamBuffer (JsString.or_empty final) c in
  for_each handleLine c1 lines.

(** The callback of [socket.connect]. *)
Definition on_connect (c : XDBClient) : XDBClient * list Effect :=
  let c1 := set_isConnected true c in
  (c1,
   log INFO (str "Connection established to " ++ endpoint c1) None
   ++ [ConnectResolve]).

(** The ['data'] listener. *)
Definition on_data (c : XDBClient) (chunk : Buffer.t) : XDBClient * list Effect :=
  handleStreamData c (Buffer.toString chunk).

(** The ['error'] listener. *)
Definition on_error (c : XDBClient) (err : JsError) : XDBClient * list Effect :=
  let c1 := set_isConnected false c in
  let logs :=
    if code_is err ECONNREFUSED then
      log ERROR (str "Failed to connect to host " ++ endpoint c1) None
      ++ log WARN
           (str "Hint: Is the XDB server running? Try starting it with './bin/server'")
           None
    else log ERROR (str "Socket error occurred: " ++ message err) None in
  if Nat.eqb (length (responseQueue c1)) 0 then (c1, logs ++ [ConnectReject err])
  else
    let '(resolver, queue) := JsArray.shift (responseQueue c1) in
    (set_responseQueue queue c1,
     logs ++ match resolver with
             | Some p => [Reject p err]
             | None => []
             end).

(** The ['close'] listener. *)
Definition on_close (c : XDBClient) : XDBClient * list Effect :=
  (set_isConnected false c, []).

(** [sendCommand(payload)], [p] being the promise it returns. *)
Definition sendCommand (p : ResponseResolver) (payload : value) (c : XDBClient)
  : XDBClient * list Effect :=
  if negb (isConnected c) then (c, [Reject p not_connected_error])
  else
    (set_responseQueue (responseQueue c ++ [p]) c,
     [SocketWrite (JSON_stringify payload ++ [JsString.LF])]).

(** [const { _id, ...cleanData } = data]: the own properties but [_id]. *)
Definition without_id (data : list (JsString.t * value)) : list (JsString.t * value) :=
  filter (fun kv => negb (string_eqb (fst kv) (str "_id"))) data.

Definition update_request (collection id : JsString.t)
           (data : list (JsString.t * value)) : value :=
  let cleanData := JObject (without_id data) in
  let payloadData :=
    if truthy cleanData && typeof_object cleanData then cleanData else JObject [] in
  JObject [(str "action", JString (str "update"));
           (str "collection", JString collection);
           (str "id", JString id);
           (str "data", payloadData)].

(** [update(collection, id, data)]. *)
Definition update (p : ResponseResolver) (collection id : JsString.t)
           (data : list (JsString.t * value)) (c : XDBClient)
  : XDBClient * list Effect :=
  sendCommand p (update_request collection id data) c.

(** The [id] handed to [upsert]: a string, [null], or nothing at all. *)
Inductive IdArgument : Type :=
| IdUndefined
| IdNull
| IdString (s : JsString.t).

(** [id === undefined ? null : id]. *)
Definition safeId (id : IdArgument) : value :=
  match id with
  | IdUndefined => JNull
  | IdNull => JNull
  | IdString s => JString s
  end.

(** [upsert(collection, id, data)]. *)
Definition upsert_request (collection : JsString.t) (id : IdArgument)
           (data : list (JsString.t * value)) : value :=
  let cleanData := JObject (without_id data) in
  let payloadData :=
    if truthy cleanData && typeof_object cleanData then cleanData else JObject [] in
  JObject [(str "action", JString (str "upsert"));
           (str "collection", JString collection);
           (str "id", safeId id);
           (str "data", payloadData)].

Definition upsert (p : ResponseResolver) (collection : JsString.t)
           (id : IdArgument) (data : list (JsString.t * value)) :=
  sendCommand p (upsert_request collection id data).

(** [insert], [find], [delete], [count] and [snapshot]. *)
Definition insert_request (collection : JsString.t) (data : value) : value :=
  JObject [(str "action", JString (str "insert"));
           (str "collection", JString collection);
           (str "data", data)].

Definition insert (p : ResponseResolver) (collection : JsString.t) (data : value) :=
  sendCommand p (insert_request collection data).

Definition find_request (collection : JsString.t)
           (query : option value) (limit : option value) : value :=
  JObject [(str "action", JString (str "find"));
           (str "collection", JString collection);
           (str "query", match query with Some q => q | None => JObject [] end);
           (str "limit", match limit with Some n => n | None => JNumber 0 0 end)].

Definition find (p : ResponseResolver) (collection : JsString.t)
           (query : option value) (limit : option value) :=
  sendCommand p (find_request collection query limit).

Definition delete_request (collection id : JsString.t) : value :=
  JObject [(str "action", JString (str "delete"));
           (str "collection", JString collection);
           (str "id", JString id)].

Definition delete (p : ResponseResolver) (collection id : JsString.t) :=
  sendCommand p (delete_request collection id).

Definition count_request (collection : JsString.t) : value :=
  JObject [(str "action", JString (str "count"));
           (str "collection", JString collection)].

Definition count (p : ResponseResolver) (collection : JsString.t) :=
  sendCommand p (count_request collection).

Definition snapshot_request : value :=
  JObject [(str "action", JString (str "snapshot"))].

Definition snapshot (p : ResponseResolver) := sendCommand p snapshot_request.

(** *** Runs

    One client whose [connect()] has been called once: the socket
    events and the commands of the application arrive one at a time,
    each handled to completion. *)

Inductive Event : Type :=
| Command (payload : value)
| SocketConnect
| SocketData (chunk : Buffer.t)
| SocketError (err : JsError)
| SocketClose.

Record Runtime : Type := {
  client : XDBClient;
  promises : nat;
  trace : list Effect
}.

Definition start (options_host : option JsString.t) : Runtime :=
  {| client := new_XDBClient options_host; promises := 0; trace := [] |}.

Definition advance (rt : Runtime) (fresh : nat) (r : XDBClient * list Effect)
  : Runtime :=
  {| client := fst r; promises := fresh + promises rt;
     trace := trace rt ++ snd r |}.

Definition step (rt : Runtime) (ev : Event) : Runtime :=
  match ev with
  | Command payload => advance rt 1 (sendCommand (promises rt) payload (client rt))
  | SocketConnect => advance rt 0 (on_connect (client rt))
  | SocketData chunk => advance rt 0 (on_data (client rt) chunk)
  | SocketError err => advance rt 0 (on_error (client rt) err)
  | SocketClose => advance rt 0 (on_close (client rt))
  end.

Definition run (rt : Runtime) (evs : list Event) : Runtime :=
  fold_left step evs rt.

(** The writes of a list of commands. *)
Definition writes (payloads : list value) : list Effect :=
  map (fun payload => SocketWrite (JSON_stringify payload ++ [JsString.LF])) payloads.

(** A response line: one line of text that parses. *)
Definition well_formed (line : JsString.t) (v : value) : Prop :=
  ~ In JsString.LF line /\ JSON_parse line = Some v.

End Client.

(** *** Promises

    A promise takes the outcome of the first call of its [resolve] or
    [reject]; later calls change nothing. *)

Inductive Outcome : Type :=
| Fulfilled (json : value)
| Rejected (err : JsError).

Definition settles (p : ResponseResolver) (e : Effect) : option Outcome :=
  match e with
  | Resolve q json => if Nat.eqb q p then Some (Fulfilled json) else None
  | Reject q err => if Nat.eqb q p then Some (Rejected err) else None
  | _ => None
  end.

Fixpoint outcome (p : ResponseResolver) (tr : list Effect) : option Outcome :=
  match tr with
  | [] => None
  | e :: tr' =>
      match settles p e with
      | Some o => Some o
      | None => outcome p tr'
      end
  end.

(** How often [resolve] or [reject] of promise [p] has been called. *)
Fixpoint calls (p : ResponseResolver) (tr : list Effect) : nat :=
  match tr with
  | [] => 0
  | e :: tr' =>
      match settles p e with
      | Some _ => S (calls p tr')
      | None => calls p tr'
      end
  end.

(** The outcome of the promise of [connect()]: [Some None] once resolved,
    [Some (Some err)] once rejected. *)
Fixpoint connect_outcome (tr : list Effect) : option (option JsError) :=
  match tr with
  | [] => None
  | ConnectResolve :: _ => Some None
  | ConnectReject err :: _ => Some (Some err)
  | _ :: tr' => connect_outcome tr'
  end.

(** The resolver calls of a trace, console lines and writes left out. *)
Definition is_settlement (e : Effect) : bool :=
  match e with
  | Resolve _ _ | Reject _ _ => true
  | _ => false
  end.

Definition settlements (tr : list Effect) : list Effect := filter is_settlement tr.

(** The lines the loop of [handleStreamData] does not skip. *)
Definition not_blank (line : JsString.t) : bool := negb (JsString.is_blank line).

(** How often [p] stands in a queue. *)
Definition queued (p : ResponseResolver) (queue : list ResponseResolver) : nat :=
  count_occ Nat.eq_dec queue p.

(** A listener calls the resolvers it takes off the queue, once each, and
    no other. *)
Definition conserves (c : XDBClient) (r : XDBClient * list Effect) : Prop :=
  forall p, calls p (snd r) + queued p (responseQueue (fst r))
            = queued p (responseQueue c).

(** The runs keep the books: a promise that [sendCommand] has created is
    either queued once and not yet called, or off the queue and called
    once. *)
Definition accounted (rt : Runtime) : Prop :=
  forall p, calls p (trace rt) + queued p (responseQueue (client rt))
            = if Nat.ltb p (promises rt) then 1 else 0.

(** The text of complete lines, each followed by a line feed. *)
Definition stream_of (lines : list JsString.t) : JsString.t :=
  flat_map (fun l => l ++ [JsString.LF]) lines.

(** The calls [resolve(v)] that pair the resolvers with the values. *)
Definition resolutions (ps : list ResponseResolver) (values : list value) : list Effect :=
  map (fun pv => Resolve (fst pv) (snd pv)) (combine ps values).

(** The number of line feeds of a text: the lines it completes. *)
Definition count_lf (s : JsString.t) : nat := count_occ N.eq_dec s JsString.LF.

(** How many commands a list of events dispatches, and the text its data
    events bring, each chunk decoded by itself. *)
Fixpoint commands_of (evs : list Event) : nat :=
  match evs with
  | [] => 0
  | Command _ :: evs' => S (commands_of evs')
  | _ :: evs' => commands_of evs'
  end.

Fixpoint text_of (evs : list Event) : JsString.t :=
  match evs with
  | [] => []
  | SocketData chunk :: evs' => Buffer.toString chunk ++ text_of evs'
  | _ :: evs' => text_of evs'
  end.

(** Commands and data events only, with no response ahead of its
    request: a data event completes at most as many lines as there are
    entries pending ([pending] of them before the first event). *)
Fixpoint answers_follow_requests (pending : nat) (evs : list Event) : Prop :=
  match evs with
  | [] => True
  | Command _ :: evs' => answers_follow_requests (S pending) evs'
  | SocketData chunk :: evs' =>
      count_lf (Buffer.toString chunk) <= pending /\
      answers_follow_requests (pending - count_lf (Buffer.toString chunk)) evs'
  | _ => False
  end.

(** Clients and errors to try the listeners on. *)
Definition connected_client (queue : list ResponseResolver) (buffer : JsString.t)
  : XDBClient :=
  {| host := DEFAULT_HOST; isConnected := true;
     responseQueue := queue; streamBuffer := buffer |}.

Definition system_error (c msg : string) : JsError :=
  {| code := Some (str c); message := str msg |}.

(** The response [{ status: 'ok', id: n }] of the examples. *)
Definition ok_response (n : Z) : value :=
  JObject [(str "status", JString (str "ok")); (str "id", JNumber n 0)].

(** ** More of the client: answers, [upsert], [close()] *)

Section Answers.

Variable JSON_parse : JsString.t -> option value.

(** The resolver call a line that is not blank earns the entry [p]:
    [resolve] with the parsed line, or [reject] with the malformed-JSON
    error. *)
Definition verdict (p : ResponseResolver) (line : JsString.t) : Effect :=
  match JSON_parse line with
  | Some json => Resolve p json
  | None => Reject p malformed_error
  end.

(** All the calls of the loop body for such a line: the two console
    lines come before the [reject]. *)
Definition answer (p : ResponseResolver) (line : JsString.t) : list Effect :=
  match JSON_parse line with
  | Some json => [Resolve p json]
  | None =>
      [ConsoleError (Formatted ERROR (str "Protocol violation: Malformed JSON received."));
       ConsoleError (Details (JObject [(str "raw", JString line)]));
       Reject p malformed_error]
  end.

End Answers.

(** The framer as its specification words it.  The code units that
    trimming takes away, one by one: the ECMAScript WhiteSpace code points
    (TAB, VT, FF, SP, NBSP, ZWNBSP and the space separators U+1680,
    U+2000 to U+200A, U+202F, U+205F, U+3000) and the LineTerminator ones
    (LF, CR, LS, PS). *)
Definition WhiteSpace : list N :=
  [9; 11; 12; 32; 160; 65279; 5760;
   8192; 8193; 8194; 8195; 8196; 8197; 8198; 8199; 8200; 8201; 8202;
   8239; 8287; 12288]%N.

Definition LineTerminator : list N := [10; 13; 8232; 8233]%N.

(** A piece that is empty or whitespace-only after trimming. *)
Definition whitespace_only (piece : JsString.t) : bool :=
  forallb (fun c => existsb (N.eqb c) (WhiteSpace ++ LineTerminator)) piece.

(** The complete messages among the pieces of a split: every piece but
    the final one that is not empty or whitespace-only, in order. *)
Definition complete_messages (pieces : list JsString.t) : list JsString.t :=
  filter (fun piece => negb (whitespace_only piece)) (removelast pieces).

(** A line as the framer cuts it, and one it does not skip. *)
Definition is_line (l : JsString.t) : Prop := ~ In JsString.LF l.

Definition is_message (l : JsString.t) : Prop :=
  ~ In JsString.LF l /\ JsString.is_blank l = false.

(** The socket writes of a trace. *)
Definition is_write (e : Effect) : bool :=
  match e with
  | SocketWrite _ => true
  | _ => false
  end.

(** The calls a listener of incoming data may make: on resolvers and on
    the console. *)
Definition is_answering (e : Effect) : bool :=
  match e with
  | Resolve _ _ | Reject _ _ | ConsoleError _ | ConsoleLog _ => true
  | _ => false
  end.

(** What the socket has been given, in order: the texts of the
    [socket.write] calls of a trace, one after the other. *)
Definition written (tr : list Effect) : JsString.t :=
  flat_map (fun e => match e with SocketWrite text => text | _ => [] end) tr.

Section Accepted.

Variable JSON_parse : JsString.t -> option value.
Variable JSON_stringify : value -> JsString.t.

(** The payloads of the commands that [sendCommand] does not refuse:
    those dispatched while [isConnected] holds, in order. *)
Fixpoint accepted (rt : Runtime) (evs : list Event) : list value :=
  match evs with
  | [] => []
  | ev :: evs' =>
      match ev with
      | Command payload => if isConnected (client rt) then [payload] else []
      | _ => []
      end ++ accepted (step JSON_parse JSON_stringify rt ev) evs'
  end.

End Accepted.

(** Events among which the socket does not (re)connect. *)
Definition no_reconnect (evs : list Event) : bool :=
  forallb (fun ev => match ev with SocketConnect => false | _ => true end) evs.

(** The queue holds promises in the order [sendCommand] created them,
    none of them newer than the last one created. *)
Definition in_dispatch_order (rt : Runtime) : Prop :=
  StronglySorted lt (responseQueue (client rt)) /\
  Forall (fun p => p < promises rt) (responseQueue (client rt)).

(** *** [close()]

    [close()] does nothing on a client that is not connected.  Otherwise
    it sends the [exit] request through [sendCommand] and waits for its
    promise; when that promise is fulfilled it calls [socket.end()] and
    prints a line, and when it is rejected [close()] fails with the same
    error.  The part after the [await] runs once the listener that settled
    the promise has returned. *)

Definition exit_request : value := JObject [(str "action", JString (str "exit"))].

(** The calls of a session: those of the client as before, [socket.end()],
    and the settling of the promise that [close()] returned, told apart
    by the promise of the [exit] request it waited for ([None] when it
    found the client disconnected). *)
Inductive SessionEffect : Type :=
| Does (e : Effect)
| SocketEnd
| CloseResolve (exit : option ResponseResolver)
| CloseReject (exit : ResponseResolver) (err : JsError).

Inductive SessionEvent : Type :=
| Close
| Happens (ev : Event).

Record Session : Type := {
  runtime : Runtime;
  closers : list ResponseResolver;
  journal : list SessionEffect
}.

(** The rest of [close()] after its [await]. *)
Definition after_exit (p : ResponseResolver) (o : Outcome) : list SessionEffect :=
  match o with
  | Fulfilled _ =>
      SocketEnd
        :: map Does (log INFO (str "Session terminated gracefully.") None)
        ++ [CloseResolve (Some p)]
  | Rejected err => [CloseReject p err]
  end.

Definition settlement_of (e : Effect) : option (ResponseResolver * Outcome) :=
  match e with
  | Resolve p json => Some (p, Fulfilled json)
  | Reject p err => Some (p, Rejected err)
  | _ => None
  end.

Definition awaited (waiting : list ResponseResolver) (p : ResponseResolver) : bool :=
  existsb (Nat.eqb p) waiting.

(** The continuation that the call [e], made after the trace [tr], sets
    off: a [close()] goes on when the promise it waits for is settled for
    the first time. *)
Definition wake (waiting : list ResponseResolver) (tr : list Effect) (e : Effect)
  : list SessionEffect :=
  match settlement_of e with
  | Some (p, o) =>
      match outcome p tr with
      | None => if awaited waiting p then after_exit p o else []
      | Some _ => []
      end
  | None => []
  end.

Fixpoint resume (waiting : list ResponseResolver) (tr es : list Effect)
  : list SessionEffect :=
  match es with
  | [] => []
  | e :: es' => wake waiting tr e ++ resume waiting (tr ++ [e]) es'
  end.

Definition is_end (e : SessionEffect) : bool :=
  match e with
  | SocketEnd => true
  | _ => false
  end.

(** How often [socket.end()] has been called. *)
Definition ends (j : list SessionEffect) : nat := length (filter is_end j).


Section Sessions.

Variable JSON_parse : JsString.t -> option value.
Variable JSON_stringify : value -> JsString.t.

(** What a listener or [sendCommand] answers to an event. *)
Definition reaction (rt : Runtime) (ev : Event) : XDBClient * list Effect :=
  match ev with
  | Command payload => sendCommand JSON_stringify (promises rt) payload (client rt)
  | SocketConnect => on_connect (client rt)
  | SocketData chunk => on_data JSON_parse (client rt) chunk
  | SocketError err => on_error (client rt) err
  | SocketClose => on_close (client rt)
  end.

Definition session_start (options_host : option JsString.t) : Session :=
  {| runtime := start options_host; closers := []; journal := [] |}.

Definition session_step (s : Session) (ev : SessionEvent) : Session :=
  match ev with
  | Close =>
      if isConnected (client (runtime s)) then
        let p := promises (runtime s) in
        let r := sendCommand JSON_stringify p exit_request (client (runtime s)) in
        {| runtime := advance (runtime s) 1 r;
           closers := closers s ++ [p];
           journal := journal s ++ map Does (snd r) |}
      else
        {| runtime := runtime s;
           closers := closers s;
           journal := journal s ++ [CloseResolve None] |}
  | Happens ev =>
      let r := reaction (runtime s) ev in
      {| runtime := step JSON_parse JSON_stringify (runtime s) ev;
         closers := closers s;
         journal := journal s ++ map Does (snd r)
                    ++ resume (closers s) (trace (runtime s)) (snd r) |}
  end.

Definition session_run (s : Session) (evs : list SessionEvent) : Session :=
  fold_left session_step evs s.

End Sessions.


(** * Properties *)

(** ** Strings *)

Module JsStringFacts.

Import JsString.

Lemma split_not_nil s : split s <> [].
Proof.
  destruct s as [|c s]; simpl; [discriminate|].
  destruct (N.eqb c LF); [discriminate|].
  destruct (split s); discriminate.
Qed.

Lemma split_cons_lf s : split (LF :: s) = [] :: split s.
Proof. reflexivity. Qed.

Lemma split_cons_other c s :
  c <> LF ->
  split (c :: s) = (c :: hd [] (split s)) :: tl (split s).
Proof.
  intros Hc. simpl.
  destruct (N.eqb_spec c LF) as [E|_]; [contradiction|].
  destruct (split s) eqn:Hs; [now apply split_not_nil in Hs|reflexivity].
Qed.

Lemma join_cons l ls :
  ls <> [] -> join (l :: ls) = l ++ LF :: join ls.
Proof. destruct ls; [contradiction|reflexivity]. Qed.

(** Splitting loses nothing: joining the pieces gives the string back. *)
Lemma join_split s : join (split s) = s.
Proof.
  induction s as [|c s IH]; [reflexivity|].
  destruct (N.eqb_spec c LF) as [->|Hc].
  - rewrite split_cons_lf, join_cons by apply split_not_nil.
    now rewrite IH.
  - rewrite split_cons_other by assumption.
    destruct (split s) as [|l ls] eqn:Hs; [now apply split_not_nil in Hs|].
    simpl hd; simpl tl.
    destruct ls as [|l' ls]; simpl in *; now rewrite <- IH.
Qed.

(** No piece of a split contains the delimiter. *)
Lemma split_no_lf s : Forall (fun l => ~ In LF l) (split s).
Proof.
  induction s as [|c s IH]; [repeat constructor; auto|].
  destruct (N.eqb_spec c LF) as [->|Hc].
  - rewrite split_cons_lf. constructor; auto.
  - rewrite split_cons_other by assumption.
    destruct (split s) as [|l ls]; simpl.
    + constructor; [|constructor]. intros [H|[]]; congruence.
    + inversion IH; subst. constructor; [|assumption].
      intros [H|H]; [congruence|contradiction].
Qed.

(** A string without delimiter is a single piece. *)
Lemma split_line l : ~ In LF l -> split l = [l].
Proof.
  induction l as [|c l IH]; intros H; [reflexivity|].
  rewrite split_cons_other by (intros ->; apply H; now left).
  rewrite IH by (intros H'; apply H; now right). reflexivity.
Qed.

(** The pieces of [a ++ b]: the last piece of [a] continues into the
    first piece of [b]. *)
Lemma split_app a b :
  split (a ++ b) =
  removelast (split a) ++ (last (split a) [] ++ hd [] (split b)) :: tl (split b).
Proof.
  induction a as [|c a IH]; simpl app.
  - simpl. destruct (split b) eqn:Hb; [now apply split_not_nil in Hb|reflexivity].
  - destruct (N.eqb_spec c LF) as [->|Hc].
    + rewrite !split_cons_lf, IH.
      destruct (split a) eqn:Ha; [now apply split_not_nil in Ha|reflexivity].
    + rewrite !split_cons_other by assumption. rewrite IH.
      destruct (split a) as [|l ls] eqn:Ha; [now apply split_not_nil in Ha|].
      destruct ls as [|l' ls]; reflexivity.
Qed.

Lemma split_snoc_line l rest :
  ~ In LF l -> split (l ++ LF :: rest) = l :: split rest.
Proof.
  intros H. rewrite split_app, (split_line l H), split_cons_lf.
  simpl. now rewrite app_nil_r.
Qed.

Lemma last_cons {A} (l : list A) x d : last (x :: l) d = last l x.
Proof.
  revert x d. induction l as [|y l IH]; intros x d; [reflexivity|].
  change (last (x :: y :: l) d) with (last (y :: l) d).
  now rewrite !IH.
Qed.

Lemma pop_split s :
  JsArray.pop (split s) = (Some (last (split s) []), removelast (split s)).
Proof.
  destruct (split s) as [|l ls] eqn:Hs; [now apply split_not_nil in Hs|].
  unfold JsArray.pop. now rewrite last_cons.
Qed.

Lemma or_empty_some s : or_empty (Some s) = s.
Proof. destruct s; reflexivity. Qed.

Lemma last_in {A} (l : list A) d : l <> [] -> In (last l d) l.
Proof.
  induction l as [|x l IH]; [contradiction|]. intros _.
  destruct l as [|y l]; [now left|].
  right. apply IH. discriminate.
Qed.

Lemma last_split_no_lf s : ~ In LF (last (split s) []).
Proof.
  pose proof (split_no_lf s) as H. rewrite Forall_forall in H.
  apply H, last_in, split_not_nil.
Qed.

Lemma trim_start_nil_iff s :
  trim_start s = [] <-> forallb is_white_space s = true.
Proof.
  induction s as [|c s IH]; simpl; [tauto|].
  destruct (is_white_space c); simpl; [assumption|].
  split; discriminate.
Qed.

(** A string is blank exactly when all its code units are white space. *)
Lemma is_blank_spec s :
  is_blank s = true <-> forallb is_white_space s = true.
Proof.
  unfold is_blank, trim, trim_end.
  destruct (trim_start s) as [|c r] eqn:E.
  - simpl. rewrite <- trim_start_nil_iff. tauto.
  - assert (Hc : is_white_space c = false).
    { clear -E. induction s as [|x s IH]; simpl in E; [discriminate|].
      destruct (is_white_space x) eqn:Hx; [auto|congruence]. }
    assert (Hne : rev (trim_start (rev (c :: r))) <> []).
    { intros H. apply (f_equal (@rev N)) in H. rewrite rev_involutive in H.
      simpl in H. apply trim_start_nil_iff in H.
      rewrite forallb_app in H. simpl in H. rewrite Hc in H.
      rewrite andb_false_r in H. discriminate. }
    split.
    + destruct (rev (trim_start (rev (c :: r)))); [contradiction|discriminate].
    + intros H. apply trim_start_nil_iff in H. congruence.
Qed.

End JsStringFacts.

(** ** Decoding *)

Module BufferFacts.

Import Buffer.
Local Open Scope N_scope.

(** On ASCII bytes decoding is the identity, whatever comes after. *)
Lemma toString_ascii_app a b :
  is_ascii a = true -> toString (a ++ b) = a ++ toString b.
Proof.
  induction a as [|x a IH]; intros H; [reflexivity|].
  simpl in H. apply andb_true_iff in H as [Hx Ha].
  simpl app. cbn [toString]. rewrite Hx. now rewrite IH.
Qed.

Lemma toString_ascii a : is_ascii a = true -> toString a = a.
Proof.
  intros H. rewrite <- (app_nil_r a) at 1.
  rewrite toString_ascii_app by assumption. apply app_nil_r.
Qed.

(** Chunks of ASCII bytes decode to themselves, wherever they are cut. *)
Lemma toString_ascii_chunks chunks :
  forallb is_ascii chunks = true ->
  concat (map toString chunks) = concat chunks.
Proof.
  induction chunks as [|a chunks IH]; [reflexivity|].
  simpl. intros H. apply andb_true_iff in H as [Ha Hc].
  now rewrite toString_ascii, IH.
Qed.

End BufferFacts.

Module JsonFacts.

Local Open Scope N_scope.

Lemma string_eqb_spec a b : reflect (a = b) (string_eqb a b).
Proof.
  revert b. induction a as [|x a IH]; intros [|y b]; simpl;
    try (constructor; congruence).
  destruct (N.eqb_spec x y) as [->|Hxy]; simpl.
  - destruct (IH b) as [->|Hab]; constructor; congruence.
  - constructor; congruence.
Qed.

(** What a white-space character of [trim] cannot be: the start of a JSON
    token. *)
Lemma white_space_starts_no_token c :
  JsString.is_white_space c = true ->
  c <> 34 /\ c <> 91 /\ c <> 123 /\ c <> 110 /\ c <> 116 /\ c <> 102 /\
  c <> 45 /\ (c < 48 \/ 57 < c).
Proof.
  unfold JsString.is_white_space.
  rewrite !orb_true_iff, !andb_true_iff, !N.eqb_eq, !N.leb_le. lia.
Qed.

Lemma skip_ws_white_space s :
  forallb JsString.is_white_space s = true ->
  forallb JsString.is_white_space (skip_ws s) = true.
Proof.
  induction s as [|c s IH]; [reflexivity|].
  intros H. simpl. destruct (is_ws c); [|assumption].
  simpl in H. apply andb_true_iff in H. now apply IH.
Qed.

Lemma parse_value_white_space fuel s :
  forallb JsString.is_white_space s = true -> parse_value fuel s = None.
Proof.
  intros H. apply skip_ws_white_space in H.
  destruct fuel as [|fuel]; [reflexivity|]. cbn [parse_value].
  destruct (skip_ws s) as [|c r]; [reflexivity|].
  simpl in H. apply andb_true_iff in H as [Hc _].
  apply white_space_starts_no_token in Hc.
  destruct Hc as (H1 & H2 & H3 & H4 & H5 & H6 & H7 & H8).
  apply N.eqb_neq in H1, H2, H3, H4, H5, H6, H7.
  rewrite H1, H2, H3, H4, H5, H6.
  unfold parse_number. rewrite H7. unfold parse_int_part.
  assert (E48 : (c =? 48) = false) by (apply N.eqb_neq; lia).
  assert (Ed : is_digit c = false).
  { unfold is_digit. apply andb_false_iff.
    destruct H8; [left; apply N.leb_gt|right; apply N.leb_gt]; lia. }
  now rewrite E48, Ed.
Qed.

(** [JSON.parse] throws on a blank string. *)
Lemma parse_blank s : JsString.is_blank s = true -> parse s = None.
Proof.
  intros H. apply JsStringFacts.is_blank_spec in H.
  unfold parse. now rewrite parse_value_white_space.
Qed.

(** *** [stringify] writes no line feed *)

Lemma decimal_no_lf n : ~ In JsString.LF (decimal n).
Proof.
  unfold decimal, str, JsString.of_ascii.
  generalize (N.to_uint n). intros d.
  induction d; simpl; intros H; try (destruct H as [H|H]; [discriminate|]); auto.
Qed.

Lemma repeat_no_lf c n : c <> JsString.LF -> ~ In JsString.LF (repeat c n).
Proof. intros Hc H. apply repeat_spec in H. congruence. Qed.

Lemma in_firstn {A} (x : A) n l : In x (firstn n l) -> In x l.
Proof.
  intros H. rewrite <- (firstn_skipn n l). apply in_or_app. now left.
Qed.

Lemma in_skipn {A} (x : A) n l : In x (skipn n l) -> In x l.
Proof.
  intros H. rewrite <- (firstn_skipn n l). apply in_or_app. now right.
Qed.

Lemma number_to_string_no_lf m e : ~ In JsString.LF (number_to_string m e).
Proof.
  unfold number_to_string.
  destruct (m =? 0)%Z; [simpl; intros [H|[]]; discriminate|].
  set (ds := decimal (Z.to_N (Z.abs m))).
  assert (Hds : ~ In JsString.LF ds) by apply decimal_no_lf.
  intros H. apply in_app_or in H as [H|H].
  - destruct (m <? 0)%Z; simpl in H; [destruct H as [H|[]]; discriminate|contradiction].
  - destruct ((Z.of_nat (length ds) <=? Z.of_nat (length ds) + e)
              && (Z.of_nat (length ds) + e <=? 21))%Z.
    { apply in_app_or in H as [H|H]; [contradiction|].
      now apply repeat_no_lf in H. }
    destruct ((0 <? Z.of_nat (length ds) + e)
              && (Z.of_nat (length ds) + e <=? 21))%Z.
    { apply in_app_or in H as [H|[H|H]].
      - now apply in_firstn in H.
      - discriminate.
      - now apply in_skipn in H. }
    destruct ((-6 <? Z.of_nat (length ds) + e)
              && (Z.of_nat (length ds) + e <=? 0))%Z.
    { destruct H as [H|[H|H]]; try discriminate.
      apply in_app_or in H as [H|H]; [|contradiction].
      now apply repeat_no_lf in H. }
    assert (Hexp : forall x, ~ In JsString.LF
                     (101 :: (if (x <? 0)%Z then 45 else 43)
                          :: decimal (Z.to_N (Z.abs x)))).
    { intros x [Hx|[Hx|Hx]]; [discriminate| |now apply decimal_no_lf in Hx].
      destruct (x <? 0)%Z; discriminate. }
    destruct ds as [|d [|d' ds']]; [contradiction| |].
    + destruct H as [H|H]; [apply Hds; now left|now apply Hexp in H].
    + destruct H as [H|[H|H]]; [apply Hds; now left|discriminate|].
      apply in_app_or in H as [H|H]; [apply Hds; now right|now apply Hexp in H].
Qed.

Lemma hex_digit_no_lf d : hex_digit d <> JsString.LF.
Proof.
  unfold hex_digit, JsString.LF. destruct (d <? 10); lia.
Qed.

Lemma quote_unit_no_lf c : ~ In JsString.LF (quote_unit c).
Proof.
  unfold quote_unit, JsString.LF.
  destruct (N.eqb_spec c 34); [subst; simpl; intuition discriminate|].
  destruct (N.eqb_spec c 92); [subst; simpl; intuition discriminate|].
  cbn [orb].
  destruct (N.eqb_spec c 8); [simpl; intuition discriminate|].
  destruct (N.eqb_spec c 12); [simpl; intuition discriminate|].
  destruct (N.eqb_spec c 10); [simpl; intuition discriminate|].
  destruct (N.eqb_spec c 13); [simpl; intuition discriminate|].
  destruct (N.eqb_spec c 9); [simpl; intuition discriminate|].
  destruct ((c <? 32) || is_low_surrogate c || is_high_surrogate c).
  - unfold unicode_escape. intros [H|[H|[H|[H|[H|[H|[]]]]]]];
      try discriminate; now apply hex_digit_no_lf in H.
  - intros [H|[]]. congruence.
Qed.

Lemma quote_units_no_lf s : ~ In JsString.LF (quote_units s).
Proof.
  remember (length s) as n eqn:Hn. revert s Hn.
  induction n as [n IH] using lt_wf_ind. intros s Hn.
  destruct s as [|c [|d r]].
  - simpl. auto.
  - simpl. apply quote_unit_no_lf.
  - change (quote_units (c :: d :: r))
      with (if is_high_surrogate c && is_low_surrogate d
            then c :: d :: quote_units r
            else quote_unit c ++ quote_units (d :: r)).
    destruct (is_high_surrogate c && is_low_surrogate d) eqn:E.
    + apply andb_true_iff in E as [Hc Hd].
      unfold is_high_surrogate in Hc. unfold is_low_surrogate in Hd.
      apply andb_true_iff in Hc as [Hc _]. apply andb_true_iff in Hd as [Hd _].
      apply N.leb_le in Hc, Hd. unfold JsString.LF.
      intros [H|[H|H]]; [lia|lia|].
      apply (IH (length r)) in H; [assumption|simpl in Hn; lia|reflexivity].
    + intros H. apply in_app_or in H as [H|H].
      * now apply quote_unit_no_lf in H.
      * apply (IH (length (d :: r))) in H; [assumption|simpl in *; lia|reflexivity].
Qed.

Lemma quote_no_lf s : ~ In JsString.LF (quote s).
Proof.
  unfold quote. intros [H|H]; [discriminate|].
  apply in_app_or in H as [H|[H|[]]]; [|discriminate].
  now apply quote_units_no_lf in H.
Qed.

Lemma commas_no_lf parts :
  Forall (fun part => ~ In JsString.LF part) parts -> ~ In JsString.LF (commas parts).
Proof.
  intros Hall. destruct parts as [|part parts]; [auto|].
  inversion Hall as [|? ? Hp Hps]; subst. simpl.
  intros H. apply in_app_or in H as [H|H]; [contradiction|].
  apply in_flat_map in H as (x & Hx & [H|H]); [discriminate|].
  rewrite Forall_forall in Hps. now apply (Hps x).
Qed.

(** [JSON.stringify] escapes every line feed. *)
Lemma stringify_no_lf : forall v, ~ In JsString.LF (stringify v).
Proof.
  fix IH 1. intros [|[|]|m e|s|items|members].
  - simpl. intuition discriminate.
  - simpl. intuition discriminate.
  - simpl. intuition discriminate.
  - apply number_to_string_no_lf.
  - apply quote_no_lf.
  - cbn [stringify]. intros [H|H]; [discriminate|].
    apply in_app_or in H as [H|[H|[]]]; [|discriminate].
    revert H. apply commas_no_lf.
    induction items as [|x items IHitems]; constructor; [apply IH|assumption].
  - cbn [stringify]. intros [H|H]; [discriminate|].
    apply in_app_or in H as [H|[H|[]]]; [|discriminate].
    revert H. apply commas_no_lf.
    induction members as [|[k x] members IHmembers]; constructor; [|assumption].
    cbn [fst snd]. intros H. apply in_app_or in H as [H|[H|H]].
    + now apply quote_no_lf in H.
    + discriminate.
    + now apply IH in H.
Qed.

End JsonFacts.

(** ** Loops and traces *)

Lemma for_each_app {S A} (body : S -> A -> S * list Effect) (s : S) (xs ys : list A) :
  for_each body s (xs ++ ys) =
  (fst (for_each body (fst (for_each body s xs)) ys),
   snd (for_each body s xs) ++ snd (for_each body (fst (for_each body s xs)) ys)).
Proof.
  revert s. induction xs as [|x xs IH]; intros s; simpl.
  - now destruct (for_each body s ys).
  - destruct (body s x) as [s1 e1]. rewrite IH.
    destruct (for_each body s1 xs) as [s2 e2]; simpl.
    destruct (for_each body s2 ys) as [s3 e3]; simpl.
    now rewrite app_assoc.
Qed.

Lemma calls_app p tr1 tr2 : calls p (tr1 ++ tr2) = calls p tr1 + calls p tr2.
Proof.
  induction tr1 as [|e tr1 IH]; simpl; [reflexivity|].
  destruct (settles p e); simpl; now rewrite IH.
Qed.

Lemma settlements_app tr1 tr2 :
  settlements (tr1 ++ tr2) = settlements tr1 ++ settlements tr2.
Proof. apply filter_app. Qed.

Lemma connect_outcome_app tr1 tr2 :
  connect_outcome tr1 = None ->
  connect_outcome (tr1 ++ tr2) = connect_outcome tr2.
Proof.
  induction tr1 as [|e tr1 IH]; simpl; [reflexivity|].
  destruct e; intros H; try discriminate; auto.
Qed.

Lemma calls_log p level text details : calls p (log level text details) = 0.
Proof.
  unfold log. destruct level, details as [d|]; simpl; try reflexivity;
    destruct (truthy d); reflexivity.
Qed.

Lemma settlements_log level text details : settlements (log level text details) = [].
Proof.
  unfold log. destruct level, details as [d|]; simpl; try reflexivity;
    destruct (truthy d); reflexivity.
Qed.

Lemma connect_outcome_log level text details :
  connect_outcome (log level text details) = None.
Proof.
  unfold log. destruct level, details as [d|]; simpl; try reflexivity;
    destruct (truthy d); reflexivity.
Qed.

Lemma set_streamBuffer_same c : set_streamBuffer (streamBuffer c) c = c.
Proof. now destruct c. Qed.

(** ** The framer *)

Section Framer.

Variable JSON_parse : JsString.t -> option value.

(** The loop never looks at the buffer, nor changes it. *)
Lemma handleLine_set_streamBuffer b c line :
  handleLine JSON_parse (set_streamBuffer b c) line =
  (set_streamBuffer b (fst (handleLine JSON_parse c line)), snd (handleLine JSON_parse c line)).
Proof.
  unfold handleLine, handleMessage.
  destruct (JsString.is_blank line); [reflexivity|].
  simpl responseQueue.
  destruct (JsArray.shift (responseQueue c)) as [[p|] q]; [|reflexivity].
  destruct (JSON_parse line); reflexivity.
Qed.

Lemma lines_set_streamBuffer b c lines :
  for_each (handleLine JSON_parse) (set_streamBuffer b c) lines =
  (set_streamBuffer b (fst (for_each (handleLine JSON_parse) c lines)),
   snd (for_each (handleLine JSON_parse) c lines)).
Proof.
  revert c. induction lines as [|l lines IH]; intros c; [reflexivity|].
  simpl. rewrite handleLine_set_streamBuffer.
  destruct (handleLine JSON_parse c l) as [c1 e1]; simpl. rewrite IH.
  now destruct (for_each (handleLine JSON_parse) c1 lines).
Qed.

Lemma handleLine_streamBuffer c line :
  streamBuffer (fst (handleLine JSON_parse c line)) = streamBuffer c.
Proof.
  unfold handleLine, handleMessage.
  destruct (JsString.is_blank line); [reflexivity|].
  destruct (JsArray.shift (responseQueue c)) as [[p|] q]; [|reflexivity].
  destruct (JSON_parse line); reflexivity.
Qed.

Lemma lines_streamBuffer c lines :
  streamBuffer (fst (for_each (handleLine JSON_parse) c lines)) = streamBuffer c.
Proof.
  revert c. induction lines as [|l lines IH]; intros c; [reflexivity|].
  simpl. pose proof (handleLine_streamBuffer c l) as H.
  destruct (handleLine JSON_parse c l) as [c1 e1]; simpl in H.
  specialize (IH c1). destruct (for_each (handleLine JSON_parse) c1 lines); simpl in *.
  congruence.
Qed.

(** Blank lines are skipped: the loop is the loop over the other lines. *)
Lemma lines_skip_blank c lines :
  for_each (handleLine JSON_parse) c lines = for_each (handleMessage JSON_parse) c (filter not_blank lines).
Proof.
  revert c. induction lines as [|l lines IH]; intros c; [reflexivity|].
  simpl. unfold handleLine at 1, not_blank at 1.
  destruct (JsString.is_blank l); simpl.
  - rewrite IH. now destruct (for_each (handleMessage JSON_parse) c (filter not_blank lines)).
  - destruct (handleMessage JSON_parse c l) as [c1 e1]. now rewrite IH.
Qed.

(** [handleStreamData] with [pop] and [|| ''] worked out. *)
Lemma handleStreamData_eq c chunk :
  handleStreamData JSON_parse c chunk =
  for_each (handleLine JSON_parse)
           (set_streamBuffer (last (JsString.split (streamBuffer c ++ chunk)) []) c)
           (removelast (JsString.split (streamBuffer c ++ chunk))).
Proof.
  unfold handleStreamData.
  now rewrite JsStringFacts.pop_split, JsStringFacts.or_empty_some.
Qed.

Lemma handleStreamData_streamBuffer c chunk :
  streamBuffer (fst (handleStreamData JSON_parse c chunk)) =
  last (JsString.split (streamBuffer c ++ chunk)) [].
Proof. now rewrite handleStreamData_eq, lines_streamBuffer. Qed.

Lemma set_streamBuffer_twice a b c :
  set_streamBuffer a (set_streamBuffer b c) = set_streamBuffer a c.
Proof. reflexivity. Qed.

Lemma removelast_cons_split (l : JsString.t) s :
  removelast (l :: JsString.split s) = l :: removelast (JsString.split s).
Proof.
  simpl. destruct (JsString.split s) eqn:E; [|reflexivity].
  now apply JsStringFacts.split_not_nil in E.
Qed.

Lemma last_cons_split (l : JsString.t) s :
  last (l :: JsString.split s) [] = last (JsString.split s) [].
Proof.
  simpl. destruct (JsString.split s) eqn:E; [|reflexivity].
  now apply JsStringFacts.split_not_nil in E.
Qed.

(** A first complete line is handled on its own, and the rest of the
    input as if it arrived on an empty buffer. *)
Lemma handleStreamData_complete_line c chunk line rest :
  streamBuffer c ++ chunk = line ++ JsString.LF :: rest ->
  ~ In JsString.LF line ->
  handleStreamData JSON_parse c chunk =
  (fst (handleStreamData JSON_parse
          (fst (handleLine JSON_parse (set_streamBuffer [] c) line)) rest),
   snd (handleLine JSON_parse (set_streamBuffer [] c) line)
   ++ snd (handleStreamData JSON_parse
             (fst (handleLine JSON_parse (set_streamBuffer [] c) line)) rest)).
Proof.
  intros Hcat Hline.
  rewrite !handleStreamData_eq, Hcat.
  rewrite (handleLine_streamBuffer (set_streamBuffer [] c) line).
  simpl streamBuffer. change ([] ++ rest) with rest.
  rewrite JsStringFacts.split_snoc_line by assumption.
  rewrite removelast_cons_split, last_cons_split.
  set (final := last (JsString.split rest) []).
  set (lines := removelast (JsString.split rest)).
  cbn [for_each].
  rewrite (handleLine_set_streamBuffer final c line).
  rewrite (handleLine_set_streamBuffer [] c line).
  destruct (handleLine JSON_parse c line) as [c1 e1]; simpl fst; simpl snd.
  rewrite set_streamBuffer_twice.
  now destruct (for_each (handleLine JSON_parse) (set_streamBuffer final c1) lines).
Qed.

Lemma handleStreamData_no_lf c chunk :
  ~ In JsString.LF (streamBuffer (fst (handleStreamData JSON_parse c chunk))).
Proof.
  rewrite handleStreamData_streamBuffer. apply JsStringFacts.last_split_no_lf.
Qed.

(** C10: after [handleStreamData], whatever the buffer and the chunk
    were, the buffer holds no line feed. *)
Theorem streamBuffer_has_no_newline c chunk :
  ~ In JsString.LF (streamBuffer (fst (handleStreamData JSON_parse c chunk))).
Proof.
  pose proof (JsStringFacts.last_split_no_lf (streamBuffer c ++ chunk)) as H.
  now rewrite <- handleStreamData_streamBuffer in H.
Qed.

End Framer.

(** ** The socket listeners and [sendCommand] *)

Lemma on_error_queue c err :
  responseQueue (fst (on_error c err)) = tl (responseQueue c).
Proof.
  destruct c as [h connected [|p rest] buffer]; reflexivity.
Qed.

Lemma on_error_logs c err :
  exists logs,
    settlements logs = [] /\ connect_outcome logs = None /\
    snd (on_error c err) =
    logs ++ match responseQueue c with
            | [] => [ConnectReject err]
            | p :: _ => [Reject p err]
            end.
Proof.
  destruct c as [h connected queue buffer]. unfold on_error.
  cbn [responseQueue set_isConnected].
  destruct (code_is err ECONNREFUSED);
    (eexists; split; [|split; [|destruct queue; reflexivity]]);
    reflexivity.
Qed.

(** C3, amended: an ['error'] event clears [isConnected], prints its
    error lines, takes exactly the oldest entry, if there is one, off the
    queue and fails it with the error of the event; this [reject] is the
    only resolver call, and every other entry stays queued as it was.
    (With no entry pending the error goes to the promise of [connect()].)
    A ['close'] event clears [isConnected] and does nothing else: the
    queue is left as it is and nothing is called.  So the queue is empty
    after an ['error'] event exactly when it held at most one entry. *)
Theorem error_and_close_queue c err :
  on_error c err =
  ({| host := host c; isConnected := false;
      responseQueue := tl (responseQueue c); streamBuffer := streamBuffer c |},
   (if code_is err ECONNREFUSED
    then [ConsoleError (Formatted ERROR (str "Failed to connect to host " ++ endpoint c));
          ConsoleLog (Formatted WARN
            (str "Hint: Is the XDB server running? Try starting it with './bin/server'"))]
    else [ConsoleError (Formatted ERROR (str "Socket error occurred: " ++ message err))])
   ++ [match responseQueue c with
       | p :: _ => Reject p err
       | [] => ConnectReject err
       end]) /\
  settlements (snd (on_error c err))
  = match responseQueue c with
    | p :: _ => [Reject p err]
    | [] => []
    end /\
  on_close c =
  ({| host := host c; isConnected := false;
      responseQueue := responseQueue c; streamBuffer := streamBuffer c |}, []) /\
  (responseQueue (fst (on_error c err)) = [] <-> length (responseQueue c) <= 1).
Proof.
  destruct c as [h connected [|p [|q queue]] buffer]; unfold on_error;
    cbn [responseQueue set_isConnected length Nat.eqb JsArray.shift fst snd tl
         host isConnected streamBuffer];
    destruct (code_is err ECONNREFUSED);
    (split; [reflexivity|split; [reflexivity|split; [reflexivity|]]]);
    simpl; split; (reflexivity || discriminate || lia).
Qed.

(** C4: an ['error'] event that finds the queue non-empty takes off its
    oldest entry and rejects it with the error of the event; this is the
    only resolver call, the promise of [connect()] is left alone, and the
    other entries stay queued as they were. *)
Theorem error_fails_oldest_only c err p rest :
  responseQueue c = p :: rest ->
  responseQueue (fst (on_error c err)) = rest /\
  settlements (snd (on_error c err)) = [Reject p err] /\
  connect_outcome (snd (on_error c err)) = None /\
  streamBuffer (fst (on_error c err)) = streamBuffer c.
Proof.
  intros Hq. rewrite on_error_queue.
  destruct (on_error_logs c err) as (logs & Hs & Hc & ->).
  rewrite Hq, settlements_app, Hs, connect_outcome_app by assumption.
  repeat split. destruct c as [h connected queue buffer].
  simpl in Hq. subst queue. reflexivity.
Qed.


Section Dispatch.

Variable JSON_stringify : value -> JsString.t.

(** C5: [sendCommand] on a client that is not connected rejects its
    promise with the not-connected error before it returns, and does
    nothing else: the client, its queue included, is as it was, and
    nothing is written to the socket. *)
Theorem sendCommand_not_connected p payload c :
  isConnected c = false ->
  fst (sendCommand JSON_stringify p payload c) = c /\
  snd (sendCommand JSON_stringify p payload c) = [Reject p not_connected_error] /\
  outcome p (snd (sendCommand JSON_stringify p payload c))
  = Some (Rejected not_connected_error).
Proof.
  intros H. unfold sendCommand. rewrite H. simpl.
  now rewrite Nat.eqb_refl.
Qed.

Lemma get_filter_other k k0 data :
  k <> k0 ->
  get k (filter (fun kv => negb (string_eqb (fst kv) k0)) data) = get k data.
Proof.
  intros Hk. induction data as [|[k' v] data IH]; [reflexivity|].
  simpl. destruct (JsonFacts.string_eqb_spec k' k0) as [->|Hk']; simpl.
  - destruct (JsonFacts.string_eqb_spec k k0); [contradiction|assumption].
  - now rewrite IH.
Qed.

Lemma get_filter_same k0 data :
  get k0 (filter (fun kv => negb (string_eqb (fst kv) k0)) data) = None.
Proof.
  induction data as [|[k' v] data IH]; [reflexivity|].
  simpl. destruct (JsonFacts.string_eqb_spec k' k0) as [->|Hk']; simpl;
    [assumption|].
  destruct (JsonFacts.string_eqb_spec k0 k'); [congruence|assumption].
Qed.

(** C9: on a connected client [update(collection, id, data)] queues its
    promise and writes one line, the serialised request followed by a
    line feed; the request has the fields [action] (with the value
    [update]), [collection], [id] and [data], in this order, and its
    [data] is the caller's object without the property [_id], every other
    property kept. *)
Theorem update_strips_id p collection id data c :
  isConnected c = true ->
  update JSON_stringify p collection id data c =
  (set_responseQueue (responseQueue c ++ [p]) c,
   [SocketWrite
      (JSON_stringify
         (JObject [(str "action", JString (str "update"));
                   (str "collection", JString collection);
                   (str "id", JString id);
                   (str "data", JObject (without_id data))])
       ++ [JsString.LF])]) /\
  get (str "_id") (without_id data) = None /\
  (forall k, k <> str "_id" -> get k (without_id data) = get k data).
Proof.
  intros H. split; [|split].
  - unfold update, update_request, sendCommand. now rewrite H.
  - apply get_filter_same.
  - intros k. apply get_filter_other.
Qed.

End Dispatch.

(** ** Every resolver is called at most once *)

Section Conservation.

Variable JSON_parse : JsString.t -> option value.
Variable JSON_stringify : value -> JsString.t.

Lemma queued_cons p q queue :
  queued p (q :: queue) = (if Nat.eqb q p then 1 else 0) + queued p queue.
Proof.
  unfold queued. simpl.
  destruct (Nat.eq_dec q p) as [->|H].
  - now rewrite Nat.eqb_refl.
  - apply Nat.eqb_neq in H. now rewrite H.
Qed.

Lemma queued_app p q1 q2 : queued p (q1 ++ q2) = queued p q1 + queued p q2.
Proof. apply count_occ_app. Qed.

Lemma handleMessage_conserves c line : conserves c (handleMessage JSON_parse c line).
Proof.
  intros p. unfold handleMessage.
  destruct (responseQueue c) as [|q rest]; [reflexivity|].
  cbn [JsArray.shift]. rewrite queued_cons.
  destruct (JSON_parse line); cbn [fst snd set_responseQueue responseQueue].
  - simpl. destruct (Nat.eqb q p); reflexivity.
  - rewrite calls_app, calls_log. simpl.
    destruct (Nat.eqb q p); reflexivity.
Qed.

Lemma handleLine_conserves c line : conserves c (handleLine JSON_parse c line).
Proof.
  unfold handleLine. destruct (JsString.is_blank line).
  - intros p. reflexivity.
  - apply handleMessage_conserves.
Qed.

Lemma lines_conserve c lines :
  conserves c (for_each (handleLine JSON_parse) c lines).
Proof.
  revert c. induction lines as [|l lines IH]; intros c p; [reflexivity|].
  simpl. pose proof (handleLine_conserves c l p) as H1.
  destruct (handleLine JSON_parse c l) as [c1 e1].
  pose proof (IH c1 p) as H2.
  destruct (for_each (handleLine JSON_parse) c1 lines) as [c2 e2].
  simpl in *. rewrite calls_app. lia.
Qed.

Lemma handleStreamData_conserves c chunk :
  conserves c (handleStreamData JSON_parse c chunk).
Proof.
  intros p. rewrite handleStreamData_eq.
  apply (lines_conserve (set_streamBuffer _ c)).
Qed.

Lemma on_error_conserves c err : conserves c (on_error c err).
Proof.
  intros p. rewrite on_error_queue.
  destruct (on_error_logs c err) as (logs & Hs & _ & ->).
  rewrite calls_app.
  assert (Hlogs : calls p logs = 0).
  { clear -Hs. induction logs as [|e logs IH]; [reflexivity|].
    unfold settlements in Hs. simpl in Hs.
    destruct e; simpl in *; try discriminate; auto. }
  rewrite Hlogs. destruct (responseQueue c) as [|q rest]; [reflexivity|].
  rewrite queued_cons. simpl. destruct (Nat.eqb q p); reflexivity.
Qed.

Lemma on_connect_conserves c : conserves c (on_connect c).
Proof.
  intros p. unfold on_connect. cbn [fst snd].
  rewrite calls_app, calls_log. reflexivity.
Qed.

Lemma advance_accounted rt r :
  accounted rt -> conserves (client rt) r -> accounted (advance rt 0 r).
Proof.
  intros Hrt Hr p. unfold advance. cbn [client promises trace].
  rewrite calls_app. specialize (Hrt p). specialize (Hr p). simpl. lia.
Qed.

Lemma step_accounted rt ev :
  accounted rt -> accounted (step JSON_parse JSON_stringify rt ev).
Proof.
  intros Hrt. destruct ev; cbn [step].
  - intros p. specialize (Hrt p). unfold advance, sendCommand.
    cbn [client promises trace].
    destruct (isConnected (client rt)); cbn [negb fst snd].
    + cbn [set_responseQueue responseQueue].
      rewrite calls_app, queued_app, queued_cons. simpl.
      change (1 + promises rt) with (S (promises rt)).
      destruct (Nat.eqb_spec (promises rt) p), (Nat.ltb_spec p (promises rt)),
        (Nat.ltb_spec p (S (promises rt))); lia.
    + rewrite calls_app. simpl.
      change (1 + promises rt) with (S (promises rt)).
      destruct (Nat.eqb_spec (promises rt) p), (Nat.ltb_spec p (promises rt)),
        (Nat.ltb_spec p (S (promises rt))); lia.
  - apply advance_accounted, on_connect_conserves; assumption.
  - apply advance_accounted, handleStreamData_conserves; assumption.
  - apply advance_accounted, on_error_conserves; assumption.
  - apply advance_accounted; [assumption|]. intros p. reflexivity.
Qed.

Lemma run_accounted rt evs :
  accounted rt -> accounted (run JSON_parse JSON_stringify rt evs).
Proof.
  revert rt. induction evs as [|ev evs IH]; intros rt Hrt; [assumption|].
  apply IH, step_accounted, Hrt.
Qed.

End Conservation.

(** ** Chunking does not matter to the framer *)

Section Chunking.

Variable JSON_parse : JsString.t -> option value.

Lemma last_app_nonempty {A} (xs ys : list A) d :
  ys <> [] -> last (xs ++ ys) d = last ys d.
Proof.
  intros H. induction xs as [|x xs IH]; [reflexivity|].
  simpl app. rewrite <- IH. simpl. destruct (xs ++ ys) eqn:E; [|reflexivity].
  apply app_eq_nil in E. now destruct E.
Qed.

(** Two chunks one after the other are handled as their concatenation. *)
Lemma handleStreamData_app c a b :
  handleStreamData JSON_parse c (a ++ b) =
  (fst (handleStreamData JSON_parse (fst (handleStreamData JSON_parse c a)) b),
   snd (handleStreamData JSON_parse c a)
   ++ snd (handleStreamData JSON_parse (fst (handleStreamData JSON_parse c a)) b)).
Proof.
  rewrite (handleStreamData_eq JSON_parse (fst _) b).
  rewrite handleStreamData_streamBuffer.
  rewrite !handleStreamData_eq.
  rewrite app_assoc, (JsStringFacts.split_app (streamBuffer c ++ a) b).
  set (L := last (JsString.split (streamBuffer c ++ a)) []).
  set (lines1 := removelast (JsString.split (streamBuffer c ++ a))).
  set (M := (L ++ hd [] (JsString.split b)) :: tl (JsString.split b)).
  assert (HM : JsString.split (L ++ b) = M).
  { rewrite JsStringFacts.split_app.
    now rewrite (JsStringFacts.split_line L) by apply JsStringFacts.last_split_no_lf. }
  rewrite HM, removelast_app, last_app_nonempty by discriminate.
  rewrite for_each_app.
  rewrite !(lines_set_streamBuffer JSON_parse _ c lines1).
  cbn [fst snd]. now rewrite set_streamBuffer_twice.
Qed.

Lemma handleStreamData_nil c :
  ~ In JsString.LF (streamBuffer c) -> handleStreamData JSON_parse c [] = (c, []).
Proof.
  intros H. rewrite handleStreamData_eq, app_nil_r.
  rewrite JsStringFacts.split_line by assumption. simpl.
  now rewrite set_streamBuffer_same.
Qed.

(** Any number of chunks are handled as their concatenation. *)
Lemma chunks_as_one c chunks :
  ~ In JsString.LF (streamBuffer c) ->
  for_each (handleStreamData JSON_parse) c chunks
  = handleStreamData JSON_parse c (concat chunks).
Proof.
  revert c. induction chunks as [|a chunks IH]; intros c H.
  - now rewrite handleStreamData_nil.
  - simpl. rewrite handleStreamData_app.
    pose proof (handleStreamData_no_lf JSON_parse c a) as H1.
    destruct (handleStreamData JSON_parse c a) as [c1 e1]. simpl in *.
    rewrite IH by assumption.
    now destruct (handleStreamData JSON_parse c1 (concat chunks)).
Qed.

(** Cutting the text into chunks changes nothing: on a buffer that holds
    no line feed, handling the chunks one data event after the other
    leaves the same client and makes the same calls, in the same order,
    as handling their concatenation at once. *)
Theorem chunking_is_immaterial c chunks :
  ~ In JsString.LF (streamBuffer c) ->
  for_each (handleStreamData JSON_parse) c chunks
  = handleStreamData JSON_parse c (concat chunks).
Proof. apply chunks_as_one. Qed.

End Chunking.

(** ** Responses are paired with requests in order *)

Section Correlation.

Variable JSON_parse : JsString.t -> option value.
Variable JSON_stringify : value -> JsString.t.

(** [JSON.parse] throws on a string that is empty or all white space. *)
Hypothesis JSON_parse_blank :
  forall s, JsString.is_blank s = true -> JSON_parse s = None.

Lemma set_responseQueue_same c : set_responseQueue (responseQueue c) c = c.
Proof. now destruct c. Qed.

Lemma lines_resolve_in_order lines : forall values ps later c,
  Forall2 (well_formed JSON_parse) lines values ->
  length ps = length lines ->
  streamBuffer c = [] ->
  responseQueue c = ps ++ later ->
  handleStreamData JSON_parse c (stream_of lines)
  = (set_responseQueue later c, resolutions ps values).
Proof.
  induction lines as [|l lines IH]; intros values ps later c Hwf Hlen Hbuf Hq.
  - inversion Hwf; subst. destruct ps; [|discriminate]. simpl in Hq.
    rewrite handleStreamData_nil by (rewrite Hbuf; auto).
    now rewrite <- Hq, set_responseQueue_same.
  - inversion Hwf as [|? v ? vs [Hl Hv] Hwf']; subst.
    destruct ps as [|p ps]; [discriminate|]. injection Hlen as Hlen.
    assert (Hnb : JsString.is_blank l = false).
    { destruct (JsString.is_blank l) eqn:E; [|reflexivity].
      apply JSON_parse_blank in E. congruence. }
    assert (Hcat : streamBuffer c ++ stream_of (l :: lines)
                   = l ++ JsString.LF :: stream_of lines).
    { rewrite Hbuf. simpl. now rewrite <- app_assoc. }
    rewrite (handleStreamData_complete_line JSON_parse c _ l _ Hcat Hl).
    unfold handleLine, handleMessage. rewrite Hnb.
    cbn [responseQueue set_streamBuffer]. rewrite Hq.
    cbn [app JsArray.shift]. rewrite Hv. cbn [fst snd].
    rewrite (IH vs ps later) by (assumption || reflexivity).
    cbn [fst snd app]. f_equal.
    destruct c; simpl in *; now subst.
Qed.

(** In whatever chunks the lines arrive, the oldest entries get the
    parsed lines, one each and in order. *)
Lemma fifo_any_chunking lines values ps later c chunks :
  Forall2 (well_formed JSON_parse) lines values ->
  length ps = length lines ->
  streamBuffer c = [] ->
  responseQueue c = ps ++ later ->
  concat chunks = stream_of lines ->
  for_each (handleStreamData JSON_parse) c chunks
  = (set_responseQueue later c, resolutions ps values).
Proof.
  intros Hwf Hlen Hbuf Hq Hcat.
  rewrite chunks_as_one by (rewrite Hbuf; auto).
  rewrite Hcat. now apply lines_resolve_in_order.
Qed.

End Correlation.

Section Runs.

Variable JSON_parse : JsString.t -> option value.
Variable JSON_stringify : value -> JsString.t.

Hypothesis JSON_parse_blank :
  forall s, JsString.is_blank s = true -> JSON_parse s = None.

Lemma run_app rt evs1 evs2 :
  run JSON_parse JSON_stringify rt (evs1 ++ evs2)
  = run JSON_parse JSON_stringify (run JSON_parse JSON_stringify rt evs1) evs2.
Proof. apply fold_left_app. Qed.

(** Commands on a connected client: each is queued and written. *)
Lemma run_commands payloads : forall rt,
  isConnected (client rt) = true ->
  run JSON_parse JSON_stringify rt (map Command payloads) =
  {| client := set_responseQueue
                 (responseQueue (client rt) ++ seq (promises rt) (length payloads))
                 (client rt);
     promises := length payloads + promises rt;
     trace := trace rt ++ writes JSON_stringify payloads |}.
Proof.
  induction payloads as [|a payloads IH]; intros rt Hc.
  - simpl. rewrite !app_nil_r, set_responseQueue_same. now destruct rt.
  - change (run JSON_parse JSON_stringify rt (map Command (a :: payloads)))
      with (run JSON_parse JSON_stringify
                (step JSON_parse JSON_stringify rt (Command a))
                (map Command payloads)).
    assert (Hstep : step JSON_parse JSON_stringify rt (Command a) =
                    {| client := set_responseQueue
                                   (responseQueue (client rt) ++ [promises rt])
                                   (client rt);
                       promises := S (promises rt);
                       trace := trace rt ++ writes JSON_stringify [a] |}).
    { unfold step, sendCommand, advance, writes. now rewrite Hc. }
    rewrite Hstep, IH by assumption.
    cbn [client promises trace set_responseQueue responseQueue host
         isConnected streamBuffer length seq writes map].
    rewrite <- !app_assoc, Nat.add_succ_r. reflexivity.
Qed.

(** Data events: the listener decodes each chunk by itself and hands the
    text to [handleStreamData]. *)
Lemma run_data chunks : forall rt,
  run JSON_parse JSON_stringify rt (map SocketData chunks) =
  advance rt 0 (for_each (handleStreamData JSON_parse) (client rt)
                         (map Buffer.toString chunks)).
Proof.
  induction chunks as [|a chunks IH]; intros rt.
  - unfold advance. simpl. rewrite app_nil_r. now destruct rt.
  - change (run JSON_parse JSON_stringify rt (map SocketData (a :: chunks)))
      with (run JSON_parse JSON_stringify
                (step JSON_parse JSON_stringify rt (SocketData a))
                (map SocketData chunks)).
    rewrite IH. cbn [step for_each map]. unfold on_data, advance.
    destruct (handleStreamData JSON_parse (client rt) (Buffer.toString a)) as [c1 e1].
    cbn [client promises trace fst snd].
    destruct (for_each (handleStreamData JSON_parse) c1 (map Buffer.toString chunks)).
    cbn [fst snd]. now rewrite app_assoc.
Qed.

Lemma outcome_resolutions values : forall a n i v,
  nth_error values i = Some v -> i < n ->
  outcome (a + i) (resolutions (seq a n) values) = Some (Fulfilled v).
Proof.
  induction values as [|w values IH]; intros a n i v Hv Hi.
  - now destruct i.
  - destruct n as [|n]; [lia|]. unfold resolutions. cbn [seq combine map fst snd outcome settles].
    destruct i as [|i].
    + injection Hv as ->. now rewrite Nat.add_0_r, Nat.eqb_refl.
    + destruct (Nat.eqb_spec a (a + S i)) as [E|_]; [lia|].
      rewrite Nat.add_succ_r. apply (IH (S a) n i v); [assumption|lia].
Qed.

Lemma outcome_settlements p tr : outcome p (settlements tr) = outcome p tr.
Proof.
  induction tr as [|e tr IH]; [reflexivity|].
  destruct e; simpl; try assumption; now rewrite IH.
Qed.

Lemma settlements_resolutions ps values :
  settlements (resolutions ps values) = resolutions ps values.
Proof.
  unfold resolutions, settlements.
  induction (combine ps values) as [|x l IH]; [reflexivity|].
  cbn [map filter is_settlement]. now f_equal.
Qed.

Lemma settlements_writes payloads : settlements (writes JSON_stringify payloads) = [].
Proof. induction payloads; [reflexivity|assumption]. Qed.

Lemma fifo_run options_host payloads lines values chunks :
  Forall2 (well_formed JSON_parse) lines values ->
  length payloads = length lines ->
  concat (map Buffer.toString chunks) = stream_of lines ->
  let rt := run JSON_parse JSON_stringify (start options_host)
                (SocketConnect :: map Command payloads ++ map SocketData chunks) in
  settlements (trace rt) = resolutions (seq 0 (length payloads)) values /\
  (forall i v, nth_error values i = Some v -> outcome i (trace rt) = Some (Fulfilled v)) /\
  responseQueue (client rt) = [] /\
  streamBuffer (client rt) = [].
Proof.
  intros Hwf Hlen Hcat rt.
  assert (Hrt : rt = advance
            {| client := set_responseQueue (seq 0 (length payloads))
                           (set_isConnected true (new_XDBClient options_host));
               promises := length payloads + 0;
               trace := snd (on_connect (new_XDBClient options_host)) ++ writes JSON_stringify payloads |}
            0
            (set_responseQueue [] (set_responseQueue (seq 0 (length payloads))
                           (set_isConnected true (new_XDBClient options_host))),
             resolutions (seq 0 (length payloads)) values)).
  { unfold rt. change (SocketConnect :: ?l) with ([SocketConnect] ++ l).
    rewrite !run_app, run_commands by reflexivity. rewrite run_data.
    cbn [client].
    rewrite (fifo_any_chunking JSON_parse JSON_parse_blank lines values
               (seq 0 (length payloads)) []); try assumption; try reflexivity.
    - now rewrite length_seq.
    - cbn [responseQueue set_responseQueue]. now rewrite app_nil_r. }
  assert (Hs : settlements (trace rt) = resolutions (seq 0 (length payloads)) values).
  { rewrite Hrt. unfold advance, on_connect. cbn [trace snd].
    rewrite !settlements_app, settlements_log, settlements_writes,
      settlements_resolutions. reflexivity. }
  split; [assumption|]. split; [|rewrite Hrt; split; reflexivity].
  intros i v Hv. rewrite <- outcome_settlements, Hs.
  apply (outcome_resolutions values 0 (length payloads) i v Hv).
  rewrite Hlen, (Forall2_length Hwf). apply nth_error_Some. congruence.
Qed.

(** Requests and responses pair up in order: a new client connects, [n]
    commands are dispatched, and the data events bring, cut into chunks
    in any way, text that decodes chunk by chunk to [n] response lines.
    Then the resolver calls are exactly [resolve] of the i-th command's
    promise with the parsed i-th line, for every i and in this order; the
    queue and the buffer end empty. *)
Theorem responses_resolve_in_dispatch_order options_host payloads lines values chunks :
  Forall2 (well_formed JSON_parse) lines values ->
  length payloads = length lines ->
  concat (map Buffer.toString chunks) = stream_of lines ->
  let rt := run JSON_parse JSON_stringify (start options_host)
                (SocketConnect :: map Command payloads ++ map SocketData chunks) in
  settlements (trace rt) = resolutions (seq 0 (length payloads)) values /\
  (forall i v, nth_error values i = Some v -> outcome i (trace rt) = Some (Fulfilled v)) /\
  responseQueue (client rt) = [] /\
  streamBuffer (client rt) = [].
Proof. intros Hwf Hlen Hcat. now apply (fifo_run _ _ lines). Qed.

(** The same for responses in ASCII: however the bytes of the [n] lines
    are cut into data events, the i-th command's promise resolves with
    the parsed i-th line. *)
Theorem ascii_responses_resolve_in_dispatch_order
        options_host payloads lines values chunks :
  Forall2 (well_formed JSON_parse) lines values ->
  length payloads = length lines ->
  forallb Buffer.is_ascii chunks = true ->
  concat chunks = stream_of lines ->
  let rt := run JSON_parse JSON_stringify (start options_host)
                (SocketConnect :: map Command payloads ++ map SocketData chunks) in
  settlements (trace rt) = resolutions (seq 0 (length payloads)) values /\
  (forall i v, nth_error values i = Some v -> outcome i (trace rt) = Some (Fulfilled v)) /\
  responseQueue (client rt) = [] /\
  streamBuffer (client rt) = [].
Proof.
  intros Hwf Hlen Hascii Hcat. apply (fifo_run _ _ lines); try assumption.
  now rewrite BufferFacts.toString_ascii_chunks.
Qed.

End Runs.

(** ** Commands and responses interleaved *)

Lemma stream_of_cons l ls :
  stream_of (l :: ls) = l ++ JsString.LF :: stream_of ls.
Proof. unfold stream_of. simpl. now rewrite <- app_assoc. Qed.

Lemma count_lf_app a b : count_lf (a ++ b) = count_lf a + count_lf b.
Proof. apply count_occ_app. Qed.

Lemma count_lf_none s : ~ In JsString.LF s -> count_lf s = 0.
Proof. apply count_occ_not_In. Qed.

Lemma count_lf_stream ls :
  Forall (fun l => ~ In JsString.LF l) ls -> count_lf (stream_of ls) = length ls.
Proof.
  induction 1 as [|l ls Hl _ IH]; [reflexivity|].
  rewrite stream_of_cons, count_lf_app, (count_lf_none l Hl).
  unfold count_lf at 1. simpl.
  destruct (N.eq_dec JsString.LF JsString.LF); [|contradiction].
  now rewrite <- IH.
Qed.

(** Where a text of complete lines is cut, so many lines are complete
    and the start of the next one is left over. *)
Lemma stream_of_cut ls :
  Forall (fun l => ~ In JsString.LF l) ls ->
  forall X Y, X ++ Y = stream_of ls ->
  exists j p,
    j <= length ls /\ ~ In JsString.LF p /\
    X = stream_of (firstn j ls) ++ p /\
    p ++ Y = stream_of (skipn j ls).
Proof.
  induction 1 as [|l ls Hl Hls IH]; intros X Y HXY.
  - apply app_eq_nil in HXY as [-> ->]. exists 0, [].
    split; [lia|]. split; [auto|]. split; reflexivity.
  - rewrite stream_of_cons in HXY.
    change (l ++ JsString.LF :: stream_of ls)
      with (l ++ [JsString.LF] ++ stream_of ls) in HXY.
    rewrite app_assoc in HXY.
    apply app_eq_app in HXY as [m [[HX HY]|[HX HY]]].
    + destruct (IH m Y (eq_sym HY)) as (j & p & Hj & Hp & Hm & HpY).
      exists (S j), p.
      split; [simpl; lia|]. split; [assumption|]. split; [|assumption].
      cbn [firstn]. rewrite stream_of_cons, HX, Hm.
      now rewrite <- !app_assoc.
    + assert (Hm : m = [] \/ exists m' z, m = m' ++ [z]).
      { destruct m as [|x m0]; [now left|right].
        destruct (@exists_last _ (x :: m0)) as (m' & z & E); [discriminate|].
        now exists m', z. }
      destruct Hm as [->|(m' & z & ->)].
      * rewrite app_nil_r in HX. simpl in HY. subst.
        exists 1, [].
        split; [simpl; lia|]. split; [auto|]. split; [|reflexivity].
        cbn [firstn]. rewrite stream_of_cons. simpl.
        now rewrite <- app_assoc.
      * rewrite app_assoc in HX. apply app_inj_tail in HX as [HX Hz].
        subst z. exists 0, X.
        split; [lia|]. split; [|split; [reflexivity|]].
        -- intros HIn. apply Hl. rewrite HX. apply in_or_app. now left.
        -- cbn [skipn]. rewrite stream_of_cons, HY, HX.
           now rewrite <- !app_assoc.
Qed.

Lemma resolutions_app ps1 ps2 vs1 vs2 :
  length ps1 = length vs1 ->
  resolutions (ps1 ++ ps2) (vs1 ++ vs2) = resolutions ps1 vs1 ++ resolutions ps2 vs2.
Proof.
  revert vs1. induction ps1 as [|p ps1 IH]; intros [|v vs1] H; try discriminate.
  - reflexivity.
  - injection H as H. unfold resolutions in *. simpl. now rewrite IH.
Qed.

Section Interleaving.

Variable JSON_parse : JsString.t -> option value.
Variable JSON_stringify : value -> JsString.t.

Hypothesis JSON_parse_blank :
  forall s, JsString.is_blank s = true -> JSON_parse s = None.

(** A chunk that completes some lines and leaves the start of another:
    the oldest entries get the parsed lines, the rest of the text waits
    in the buffer. *)
Lemma lines_then_partial lines : forall values ps later partial c chunk,
  Forall2 (well_formed JSON_parse) lines values ->
  length ps = length lines ->
  responseQueue c = ps ++ later ->
  ~ In JsString.LF partial ->
  streamBuffer c ++ chunk = stream_of lines ++ partial ->
  handleStreamData JSON_parse c chunk
  = (set_streamBuffer partial (set_responseQueue later c), resolutions ps values).
Proof.
  induction lines as [|l lines IH];
    intros values ps later partial c chunk Hwf Hlen Hq Hp Hcat.
  - inversion Hwf; subst. destruct ps; [|discriminate]. simpl in Hq, Hcat.
    rewrite handleStreamData_eq, Hcat, JsStringFacts.split_line by assumption.
    simpl. f_equal. destruct c; simpl in *; now subst.
  - inversion Hwf as [|? v ? vs [Hl Hv] Hwf']; subst.
    destruct ps as [|p ps]; [discriminate|]. injection Hlen as Hlen.
    assert (Hnb : JsString.is_blank l = false).
    { destruct (JsString.is_blank l) eqn:E; [|reflexivity].
      apply JSON_parse_blank in E. congruence. }
    rewrite stream_of_cons in Hcat. rewrite <- app_assoc in Hcat. simpl in Hcat.
    rewrite (handleStreamData_complete_line JSON_parse c _ l _ Hcat Hl).
    unfold handleLine, handleMessage. rewrite Hnb.
    cbn [responseQueue set_streamBuffer]. rewrite Hq.
    cbn [app JsArray.shift]. rewrite Hv. cbn [fst snd].
    rewrite (IH vs ps later partial) by (assumption || reflexivity).
    reflexivity.
Qed.

Lemma well_formed_no_lf lines values :
  Forall2 (well_formed JSON_parse) lines values ->
  Forall (fun l => ~ In JsString.LF l) lines.
Proof. induction 1 as [|l v ls vs [Hl _] _ IH]; constructor; assumption. Qed.

Lemma step_command rt payload :
  isConnected (client rt) = true ->
  step JSON_parse JSON_stringify rt (Command payload) =
  {| client := set_responseQueue (responseQueue (client rt) ++ [promises rt])
                                 (client rt);
     promises := S (promises rt);
     trace := trace rt ++ writes JSON_stringify [payload] |}.
Proof. intros Hc. unfold step, sendCommand, advance, writes. now rewrite Hc. Qed.

Lemma interleaved_run evs : forall rt lines values a n,
  isConnected (client rt) = true ->
  ~ In JsString.LF (streamBuffer (client rt)) ->
  responseQueue (client rt) = seq a n ->
  promises rt = a + n ->
  answers_follow_requests n evs ->
  streamBuffer (client rt) ++ text_of evs = stream_of lines ->
  Forall2 (well_formed JSON_parse) lines values ->
  n + commands_of evs = length lines ->
  settlements (trace (run JSON_parse JSON_stringify rt evs))
  = settlements (trace rt) ++ resolutions (seq a (length lines)) values /\
  responseQueue (client (run JSON_parse JSON_stringify rt evs)) = [] /\
  streamBuffer (client (run JSON_parse JSON_stringify rt evs)) = [].
Proof.
  induction evs as [|ev evs IH];
    intros rt lines values a n Hc Hbuf Hq Hp Hans Hcat Hwf Hlen.
  - simpl in *. rewrite app_nil_r in Hcat.
    destruct lines as [|l lines].
    + inversion Hwf; subst. simpl in Hlen. assert (n = 0) by lia. subst n.
      simpl in *. now rewrite app_nil_r.
    + exfalso. apply Hbuf. rewrite Hcat, stream_of_cons.
      apply in_or_app. right. now left.
  - change (run JSON_parse JSON_stringify rt (ev :: evs))
      with (run JSON_parse JSON_stringify (step JSON_parse JSON_stringify rt ev) evs).
    destruct ev as [payload| |chunk|err|]; try contradiction.
    + rewrite step_command by assumption.
      cbn [answers_follow_requests commands_of text_of] in Hans, Hcat, Hlen.
      destruct (IH {| client := set_responseQueue
                                  (responseQueue (client rt) ++ [promises rt]) (client rt);
                      promises := S (promises rt);
                      trace := trace rt ++ writes JSON_stringify [payload] |}
                   lines values a (S n)) as (H1 & H2 & H3);
        try assumption; try (cbn [client promises]; lia).
      * cbn [client responseQueue set_responseQueue]. rewrite Hq, Hp.
        symmetry. apply seq_S.
      * split; [|split; assumption].
        rewrite H1. cbn [trace]. now rewrite settlements_app, app_nil_r.
    + cbn [answers_follow_requests commands_of text_of] in Hans, Hcat, Hlen.
      destruct Hans as [Hj Hans]. set (d := Buffer.toString chunk) in *.
      rewrite app_assoc in Hcat.
      destruct (stream_of_cut lines (well_formed_no_lf lines values Hwf) _ _ Hcat)
        as (j & p & Hjl & Hpn & HX & HpY).
      assert (Hjd : count_lf d = j).
      { apply (f_equal count_lf) in HX.
        rewrite !count_lf_app, (count_lf_none _ Hbuf), (count_lf_none _ Hpn) in HX.
        rewrite count_lf_stream in HX.
        - rewrite length_firstn in HX. lia.
        - pose proof (well_formed_no_lf lines values Hwf) as Hall.
          rewrite <- (firstn_skipn j lines) in Hall.
          now apply Forall_app in Hall. }
      rewrite Hjd in Hj, Hans.
      rewrite <- (firstn_skipn j lines) in Hwf.
      apply Forall2_app_inv_l in Hwf as (V1 & V2 & Hwf1 & Hwf2 & ->).
      assert (HV1 : length V1 = j).
      { rewrite <- (Forall2_length Hwf1), length_firstn. lia. }
      assert (Hseq : seq a n = seq a j ++ seq (a + j) (n - j)).
      { rewrite <- seq_app. f_equal. lia. }
      assert (Hstep : step JSON_parse JSON_stringify rt (SocketData chunk) =
                      advance rt 0
                        (set_streamBuffer p
                           (set_responseQueue (seq (a + j) (n - j)) (client rt)),
                         resolutions (seq a j) V1)).
      { cbn [step]. unfold on_data. f_equal.
        apply (lines_then_partial (firstn j lines) V1 (seq a j)); try assumption.
        - rewrite length_seq, length_firstn. lia.
        - now rewrite Hq. }
      rewrite Hstep.
      destruct (IH (advance rt 0
                      (set_streamBuffer p
                         (set_responseQueue (seq (a + j) (n - j)) (client rt)),
                       resolutions (seq a j) V1))
                   (skipn j lines) V2 (a + j) (n - j)) as (H1 & H2 & H3);
        try assumption; try reflexivity.
      * cbn [advance promises]. lia.
      * rewrite length_skipn. lia.
      * split; [|split; assumption].
        rewrite H1. cbn [advance trace snd].
        rewrite settlements_app, settlements_resolutions, <- app_assoc.
        f_equal. rewrite <- resolutions_app by (rewrite length_seq; congruence).
        rewrite <- seq_app, length_skipn. f_equal. f_equal. lia.
Qed.

(** Requests and responses interleaved: a new client connects; then
    commands are dispatched and data events arrive in any order, provided
    that no response line is complete before its request is dispatched.
    If the data events bring, cut in any way, text that decodes chunk by
    chunk to as many response lines as there are commands, the resolver
    calls are exactly [resolve] of the i-th command's promise with the
    parsed i-th line, in order, and the queue and the buffer end empty. *)
Theorem interleaved_responses_resolve_in_dispatch_order options_host evs lines values :
  answers_follow_requests 0 evs ->
  text_of evs = stream_of lines ->
  Forall2 (well_formed JSON_parse) lines values ->
  commands_of evs = length lines ->
  let rt := run JSON_parse JSON_stringify (start options_host) (SocketConnect :: evs) in
  settlements (trace rt) = resolutions (seq 0 (length lines)) values /\
  (forall i v, nth_error values i = Some v -> outcome i (trace rt) = Some (Fulfilled v)) /\
  responseQueue (client rt) = [] /\
  streamBuffer (client rt) = [].
Proof.
  intros Hans Htext Hwf Hlen rt.
  cut (settlements (trace rt) = resolutions (seq 0 (length lines)) values /\
       responseQueue (client rt) = [] /\ streamBuffer (client rt) = []).
  { intros (H1 & H2 & H3). split; [assumption|]. split; [|split; assumption].
    intros i v Hv. rewrite <- outcome_settlements, H1.
    apply (outcome_resolutions values 0 (length lines) i v Hv).
    rewrite (Forall2_length Hwf). apply nth_error_Some. congruence. }
  unfold rt.
  change (run JSON_parse JSON_stringify (start options_host) (SocketConnect :: evs))
    with (run JSON_parse JSON_stringify
              (step JSON_parse JSON_stringify (start options_host) SocketConnect) evs).
  destruct (interleaved_run evs
              (step JSON_parse JSON_stringify (start options_host) SocketConnect)
              lines values 0 0) as (H1 & H2 & H3);
    try assumption; try reflexivity.
  - simpl. auto.
  - split; [|split; assumption]. now rewrite H1.
Qed.

End Interleaving.

(** ** What the framer does with lines nobody waits for, blank lines and
       malformed lines *)

Lemma split_stream_of ls : forall partial,
  Forall is_line ls -> is_line partial ->
  JsString.split (stream_of ls ++ partial) = ls ++ [partial].
Proof.
  induction ls as [|l ls IH]; intros partial Hls Hp.
  - now apply JsStringFacts.split_line.
  - inversion Hls as [|? ? Hl Hls']; subst.
    rewrite stream_of_cons, <- app_assoc. simpl.
    rewrite JsStringFacts.split_snoc_line by assumption.
    now rewrite IH.
Qed.

Section Lines.

Variable JSON_parse : JsString.t -> option value.

Lemma lines_nobody_waits_for c lines :
  responseQueue c = [] ->
  for_each (handleLine JSON_parse) c lines = (c, []).
Proof.
  intros Hq. induction lines as [|l lines IH]; [reflexivity|].
  cbn [for_each]. unfold handleLine at 1, handleMessage.
  destruct (JsString.is_blank l).
  - now rewrite IH.
  - rewrite Hq. cbn [JsArray.shift]. rewrite <- Hq, set_responseQueue_same.
    now rewrite IH.
Qed.

(** With no entry pending, whatever arrives is framed and dropped: no
    resolver is called, nothing is printed, the queue stays empty, and
    only the buffer moves on to the last piece of the text. *)
Theorem surplus_lines_are_dropped c chunk :
  responseQueue c = [] ->
  handleStreamData JSON_parse c chunk
  = (set_streamBuffer (last (JsString.split (streamBuffer c ++ chunk)) []) c, []).
Proof.
  intros Hq. rewrite handleStreamData_eq.
  now apply lines_nobody_waits_for.
Qed.

(** Blank lines are no-ops: on an empty buffer, text made of complete
    lines and the start of a further one is handled exactly as the same
    text without its blank lines. *)
Theorem blank_lines_are_noops c lines partial :
  streamBuffer c = [] ->
  Forall is_line lines ->
  is_line partial ->
  handleStreamData JSON_parse c (stream_of lines ++ partial)
  = handleStreamData JSON_parse c (stream_of (filter not_blank lines) ++ partial).
Proof.
  intros Hbuf Hls Hp.
  assert (Hfs : Forall is_line (filter not_blank lines)).
  { apply Forall_forall. intros l Hl. apply filter_In in Hl as [Hl _].
    rewrite Forall_forall in Hls. now apply Hls. }
  rewrite !handleStreamData_eq, Hbuf. cbn [app].
  rewrite !split_stream_of by assumption.
  rewrite !removelast_last, !last_last, !lines_skip_blank.
  f_equal. clear. induction lines as [|l lines IH]; [reflexivity|].
  simpl. destruct (not_blank l) eqn:E; simpl; [rewrite E|]; congruence.
Qed.

Lemma handleMessage_answer c line p queue :
  responseQueue c = p :: queue ->
  handleMessage JSON_parse c line
  = (set_responseQueue queue c, answer JSON_parse p line).
Proof.
  intros Hq. unfold handleMessage, answer. rewrite Hq. cbn [JsArray.shift].
  destruct (JSON_parse line); reflexivity.
Qed.

Lemma settlements_answer p line :
  settlements (answer JSON_parse p line) = [verdict JSON_parse p line].
Proof. unfold answer, verdict. destruct (JSON_parse line); reflexivity. Qed.

Lemma settlements_answers (l : list (ResponseResolver * JsString.t)) :
  settlements (flat_map (fun pl => answer JSON_parse (fst pl) (snd pl)) l)
  = map (fun pl => verdict JSON_parse (fst pl) (snd pl)) l.
Proof.
  induction l as [|pl l IH]; [reflexivity|].
  cbn [flat_map map]. now rewrite settlements_app, settlements_answer, IH.
Qed.

Lemma messages_answered_in_order lines : forall ps later c,
  Forall is_message lines ->
  length ps = length lines ->
  streamBuffer c = [] ->
  responseQueue c = ps ++ later ->
  handleStreamData JSON_parse c (stream_of lines)
  = (set_responseQueue later c,
     flat_map (fun pl => answer JSON_parse (fst pl) (snd pl)) (combine ps lines)).
Proof.
  induction lines as [|l lines IH]; intros ps later c Hls Hlen Hbuf Hq.
  - destruct ps; [|discriminate]. simpl in Hq.
    rewrite handleStreamData_nil by (rewrite Hbuf; auto).
    now rewrite <- Hq, set_responseQueue_same.
  - inversion Hls as [|? ? [Hl Hnb] Hls']; subst.
    destruct ps as [|p ps]; [discriminate|]. injection Hlen as Hlen.
    assert (Hcat : streamBuffer c ++ stream_of (l :: lines)
                   = l ++ JsString.LF :: stream_of lines).
    { now rewrite Hbuf, stream_of_cons. }
    rewrite (handleStreamData_complete_line JSON_parse c _ l _ Hcat Hl).
    unfold handleLine. rewrite Hnb.
    rewrite (handleMessage_answer (set_streamBuffer [] c) l p (ps ++ later))
      by (cbn [responseQueue set_streamBuffer]; now rewrite Hq).
    cbn [fst snd].
    rewrite (IH ps later) by (assumption || reflexivity).
    cbn [fst snd combine flat_map]. f_equal.
    destruct c; simpl in *; now subst.
Qed.

(** Each response answers its own request, well-formed or not: when
    lines that are not blank arrive for the oldest entries, cut into
    chunks in any way, the i-th entry gets the i-th line, [resolve] with
    its value if it parses, the two console lines and [reject] with the
    malformed-JSON error if it does not; a malformed line costs no other
    entry its answer.  The entries behind stay queued. *)
Theorem each_line_answers_its_own_request lines ps later c chunks :
  Forall is_message lines ->
  length ps = length lines ->
  streamBuffer c = [] ->
  responseQueue c = ps ++ later ->
  concat chunks = stream_of lines ->
  for_each (handleStreamData JSON_parse) c chunks
  = (set_responseQueue later c,
     flat_map (fun pl => answer JSON_parse (fst pl) (snd pl)) (combine ps lines)) /\
  settlements (snd (for_each (handleStreamData JSON_parse) c chunks))
  = map (fun pl => verdict JSON_parse (fst pl) (snd pl)) (combine ps lines).
Proof.
  intros Hls Hlen Hbuf Hq Hcat.
  assert (H : for_each (handleStreamData JSON_parse) c chunks
              = (set_responseQueue later c,
                 flat_map (fun pl => answer JSON_parse (fst pl) (snd pl))
                          (combine ps lines))).
  { rewrite chunks_as_one by (rewrite Hbuf; auto).
    rewrite Hcat. now apply messages_answered_in_order. }
  split; [assumption|]. rewrite H. apply settlements_answers.
Qed.

End Lines.

(** ** The framer and the correlator, in full *)

Lemma white_space_listed c :
  existsb (N.eqb c) (WhiteSpace ++ LineTerminator) = JsString.is_white_space c.
Proof.
  unfold JsString.is_white_space, WhiteSpace, LineTerminator. cbn [app existsb].
  repeat match goal with
  | |- context [N.eqb c ?k] => destruct (N.eqb_spec c k) as [->|?]; [reflexivity|]
  end.
  cbn [orb].
  destruct (N.leb_spec 8192 c), (N.leb_spec c 8202); try reflexivity. lia.
Qed.

Lemma whitespace_only_blank s : whitespace_only s = JsString.is_blank s.
Proof.
  apply eq_true_iff_eq. rewrite JsStringFacts.is_blank_spec. unfold whitespace_only.
  induction s as [|c s IH]; [tauto|].
  cbn [forallb]. rewrite white_space_listed, !andb_true_iff. tauto.
Qed.

Lemma complete_messages_not_blank pieces :
  complete_messages pieces = filter not_blank (removelast pieces).
Proof.
  apply filter_ext. intros l. unfold not_blank. now rewrite whitespace_only_blank.
Qed.

Section Messages.

Variable JSON_parse : JsString.t -> option value.

(** The loop over the lines that are not blank: each one takes the
    oldest entry, as long as there is one. *)
Lemma messages_closed_form msgs : forall c,
  for_each (handleMessage JSON_parse) c msgs
  = (set_responseQueue (skipn (length msgs) (responseQueue c)) c,
     flat_map (fun pm => answer JSON_parse (fst pm) (snd pm))
              (combine (responseQueue c) msgs)).
Proof.
  induction msgs as [|m msgs IH]; intros c.
  - cbn [for_each length skipn]. rewrite set_responseQueue_same.
    now destruct (responseQueue c).
  - cbn [for_each]. destruct (responseQueue c) as [|p queue] eqn:Hq.
    + unfold handleMessage at 1. rewrite Hq. cbn [JsArray.shift].
      rewrite IH. cbn [responseQueue set_responseQueue].
      now rewrite skipn_nil.
    + rewrite (handleMessage_answer JSON_parse c m p queue Hq), IH. reflexivity.
Qed.

Lemma handleStreamData_closed_form c chunk :
  handleStreamData JSON_parse c chunk =
  ({| host := host c; isConnected := isConnected c;
      responseQueue :=
        skipn (length (complete_messages (JsString.split (streamBuffer c ++ chunk))))
              (responseQueue c);
      streamBuffer := last (JsString.split (streamBuffer c ++ chunk)) [] |},
   flat_map (fun pm => answer JSON_parse (fst pm) (snd pm))
            (combine (responseQueue c)
                     (complete_messages (JsString.split (streamBuffer c ++ chunk))))).
Proof.
  rewrite handleStreamData_eq, lines_skip_blank, <- complete_messages_not_blank.
  rewrite messages_closed_form. reflexivity.
Qed.

(** C2: [handleStreamData] appends the chunk to the buffer and splits the
    result on the line feed: the pieces, joined by line feeds, are the
    buffer followed by the chunk, and no piece holds a line feed.  The
    final piece, and nothing else, becomes the new buffer; it is not
    handled as a message.  Of the pieces before it, those that are empty
    or made of white space only are dropped: they call nothing and take
    no entry off the queue.  Every other piece is handled as a complete
    message, in order: the i-th of them takes the i-th pending entry off
    the queue and settles it, [resolve] with the parsed piece or, when it
    does not parse, the two [console.error] lines and [reject] with the
    malformed-JSON error; the pieces that find the queue used up are
    dropped.  Nothing else is called and nothing else of the client
    changes. *)
Theorem handleStreamData_frames c chunk :
  let pieces := JsString.split (streamBuffer c ++ chunk) in
  let messages :=
    filter (fun piece => negb (whitespace_only piece)) (removelast pieces) in
  JsString.join pieces = streamBuffer c ++ chunk /\
  Forall (fun piece => ~ In JsString.LF piece) pieces /\
  pieces = removelast pieces ++ [last pieces []] /\
  handleStreamData JSON_parse c chunk =
  ({| host := host c; isConnected := isConnected c;
      responseQueue := skipn (length messages) (responseQueue c);
      streamBuffer := last pieces [] |},
   flat_map (fun pm => answer JSON_parse (fst pm) (snd pm))
            (combine (responseQueue c) messages)).
Proof.
  intros pieces messages. split; [|split; [|split]].
  - apply JsStringFacts.join_split.
  - apply JsStringFacts.split_no_lf.
  - apply app_removelast_last, JsStringFacts.split_not_nil.
  - apply handleStreamData_closed_form.
Qed.





End Messages.

(** ** Invariants of the runs *)

Lemma outcome_app_settled p tr1 tr2 o :
  outcome p tr1 = Some o -> outcome p (tr1 ++ tr2) = Some o.
Proof.
  induction tr1 as [|e tr1 IH]; simpl; [discriminate|].
  destruct (settles p e); auto.
Qed.

Lemma outcome_app_unsettled p tr1 tr2 :
  outcome p tr1 = None -> outcome p (tr1 ++ tr2) = outcome p tr2.
Proof.
  induction tr1 as [|e tr1 IH]; simpl; [reflexivity|].
  destruct (settles p e); [discriminate|auto].
Qed.

Lemma outcome_none_calls p tr : calls p tr = 0 -> outcome p tr = None.
Proof.
  induction tr as [|e tr IH]; simpl; [reflexivity|].
  destruct (settles p e); [discriminate|auto].
Qed.

Lemma skipn_sorted (q : list nat) k : StronglySorted lt q -> StronglySorted lt (skipn k q).
Proof.
  revert q. induction k as [|k IH]; intros q H; [assumption|].
  destruct q as [|x q]; [constructor|]. simpl. apply IH.
  now inversion H.
Qed.

Lemma skipn_bounded (q : list nat) k n :
  Forall (fun p => p < n) q -> Forall (fun p => p < n) (skipn k q).
Proof.
  revert q. induction k as [|k IH]; intros q H; [assumption|].
  destruct q as [|x q]; [constructor|]. simpl. apply IH.
  now inversion H.
Qed.

Lemma push_sorted (q : list nat) n :
  StronglySorted lt q -> Forall (fun p => p < n) q -> StronglySorted lt (q ++ [n]).
Proof.
  induction 1 as [|x q Hq IH Hx]; intros Hn; simpl.
  - repeat constructor.
  - inversion Hn; subst. constructor; [auto|].
    apply Forall_app. split; [assumption|]. now repeat constructor.
Qed.

Section Frames.

Variable JSON_parse : JsString.t -> option value.
Variable JSON_stringify : value -> JsString.t.

(** What the loop of [handleStreamData] can do to a client: take
    entries off the front of the queue; and what it can call: resolvers
    and the console. *)
Lemma lines_frame lines : forall c,
  exists k,
    fst (for_each (handleLine JSON_parse) c lines)
    = set_responseQueue (skipn k (responseQueue c)) c /\
    forallb is_answering (snd (for_each (handleLine JSON_parse) c lines)) = true.
Proof.
  induction lines as [|l lines IH]; intros c.
  - exists 0. simpl. now rewrite set_responseQueue_same.
  - cbn [for_each]. unfold handleLine at 1 3.
    destruct (JsString.is_blank l).
    + destruct (IH c) as (k & H1 & H2). exists k.
      destruct (for_each (handleLine JSON_parse) c lines). simpl in *. now split.
    + unfold handleMessage. destruct (responseQueue c) as [|p q] eqn:Hq.
      * cbn [JsArray.shift]. rewrite <- Hq, set_responseQueue_same.
        destruct (IH c) as (k & H1 & H2). exists k.
        destruct (for_each (handleLine JSON_parse) c lines). simpl in *.
        now rewrite Hq in *.
      * cbn [JsArray.shift].
        destruct (IH (set_responseQueue q c)) as (k & H1 & H2). exists (S k).
        destruct (JSON_parse l);
          destruct (for_each (handleLine JSON_parse) (set_responseQueue q c) lines);
          simpl in *; now split.
Qed.

Lemma handleStreamData_frame c chunk :
  exists k,
    fst (handleStreamData JSON_parse c chunk)
    = set_streamBuffer (last (JsString.split (streamBuffer c ++ chunk)) [])
                       (set_responseQueue (skipn k (responseQueue c)) c) /\
    forallb is_answering (snd (handleStreamData JSON_parse c chunk)) = true.
Proof.
  rewrite handleStreamData_eq, lines_set_streamBuffer.
  destruct (lines_frame (removelast (JsString.split (streamBuffer c ++ chunk))) c)
    as (k & H1 & H2).
  exists k. cbn [fst snd]. now rewrite H1.
Qed.

Lemma answering_no_write es :
  forallb is_answering es = true -> filter is_write es = [].
Proof.
  induction es as [|e es IH]; [reflexivity|].
  simpl. intros H. apply andb_true_iff in H as [He Hes].
  destruct e; try discriminate; simpl; auto.
Qed.

Lemma on_error_frame c err :
  fst (on_error c err)
  = set_responseQueue (skipn 1 (responseQueue c)) (set_isConnected false c) /\
  filter is_write (snd (on_error c err)) = [].
Proof.
  destruct c as [h connected [|p queue] buffer]; unfold on_error;
    cbn [responseQueue set_isConnected length Nat.eqb JsArray.shift fst snd];
    destruct (code_is err ECONNREFUSED); split; reflexivity.
Qed.

Lemma step_in_dispatch_order rt ev :
  in_dispatch_order rt -> in_dispatch_order (step JSON_parse JSON_stringify rt ev).
Proof.
  intros [Hs Hb]. destruct ev as [payload| |chunk|err|]; cbn [step].
  - unfold sendCommand, advance, in_dispatch_order.
    destruct (isConnected (client rt)); cbn [negb fst snd client promises].
    + cbn [responseQueue set_responseQueue]. split.
      * now apply push_sorted.
      * apply Forall_app. split.
        -- eapply Forall_impl; [|exact Hb]. simpl. intros; lia.
        -- repeat constructor.
    + split; [assumption|]. eapply Forall_impl; [|exact Hb]. simpl. intros; lia.
  - split; assumption.
  - destruct (handleStreamData_frame (client rt) (Buffer.toString chunk))
      as (k & H1 & _).
    unfold in_dispatch_order, advance, on_data. cbn [client promises]. rewrite H1.
    cbn [responseQueue set_streamBuffer set_responseQueue].
    split; [now apply skipn_sorted|now apply skipn_bounded].
  - destruct (on_error_frame (client rt) err) as [H1 _].
    unfold in_dispatch_order, advance. cbn [client promises]. rewrite H1.
    cbn [responseQueue set_responseQueue].
    split; [now apply skipn_sorted|now apply skipn_bounded].
  - split; assumption.
Qed.

(** The queue is first in, first out: in every run of a new client,
    whatever arrives and in whatever order, the pending entries stand in
    the queue in the order in which their commands were dispatched
    (strictly increasing promise numbers), each a promise that
    [sendCommand] has created. *)
Theorem queue_in_dispatch_order options_host evs :
  let rt := run JSON_parse JSON_stringify (start options_host) evs in
  StronglySorted lt (responseQueue (client rt)) /\
  Forall (fun p => p < promises rt) (responseQueue (client rt)).
Proof.
  cbv zeta.
  change (in_dispatch_order (run JSON_parse JSON_stringify (start options_host) evs)).
  assert (H : in_dispatch_order (start options_host)) by (split; constructor).
  revert H. generalize (start options_host).
  induction evs as [|ev evs IH]; intros rt H; [assumption|].
  apply IH, step_in_dispatch_order, H.
Qed.

Lemma run_trace_extends evs : forall rt,
  exists more, trace (run JSON_parse JSON_stringify rt evs) = trace rt ++ more.
Proof.
  induction evs as [|ev evs IH]; intros rt.
  - exists []. simpl. now rewrite app_nil_r.
  - destruct (IH (step JSON_parse JSON_stringify rt ev)) as [more H].
    assert (H1 : exists one, trace (step JSON_parse JSON_stringify rt ev)
                             = trace rt ++ one).
    { destruct ev; cbn [step advance trace]; eexists; reflexivity. }
    destruct H1 as [one H1]. exists (one ++ more).
    cbn [run fold_left]. fold (run JSON_parse JSON_stringify).
    unfold run in H. rewrite H, H1. now rewrite app_assoc.
Qed.

Lemma disconnected_step rt ev :
  accounted rt ->
  isConnected (client rt) = false ->
  ev <> SocketConnect ->
  isConnected (client (step JSON_parse JSON_stringify rt ev)) = false /\
  filter is_write (trace (step JSON_parse JSON_stringify rt ev))
  = filter is_write (trace rt) /\
  (exists k, responseQueue (client (step JSON_parse JSON_stringify rt ev))
             = skipn k (responseQueue (client rt))) /\
  promises rt <= promises (step JSON_parse JSON_stringify rt ev) /\
  (forall p, promises rt <= p < promises (step JSON_parse JSON_stringify rt ev) ->
             outcome p (trace (step JSON_parse JSON_stringify rt ev))
             = Some (Rejected not_connected_error)).
Proof.
  intros Hacc Hc Hev. destruct ev as [payload| |chunk|err|]; cbn [step].
  - unfold sendCommand, advance. rewrite Hc. cbn [negb fst snd client promises trace].
    split; [assumption|]. split; [now rewrite filter_app, app_nil_r|].
    split; [now exists 0|]. split; [lia|].
    intros p Hp. assert (p = promises rt) by lia. subst p.
    rewrite outcome_app_unsettled.
    + simpl. now rewrite Nat.eqb_refl.
    + apply outcome_none_calls. specialize (Hacc (promises rt)).
      rewrite Nat.ltb_irrefl in Hacc. lia.
  - contradiction.
  - destruct (handleStreamData_frame (client rt) (Buffer.toString chunk))
      as (k & H1 & H2).
    unfold advance, on_data. cbn [client promises trace]. rewrite H1.
    split; [assumption|].
    split; [now rewrite filter_app, (answering_no_write _ H2), app_nil_r|].
    split; [now exists k|]. split; [lia|]. intros p Hp. lia.
  - destruct (on_error_frame (client rt) err) as [H1 H2].
    unfold advance. cbn [client promises trace]. rewrite H1.
    split; [reflexivity|].
    split; [now rewrite filter_app, H2, app_nil_r|].
    split; [now exists 1|]. split; [lia|]. intros p Hp. lia.
  - unfold advance, on_close. cbn [client promises trace fst snd].
    split; [reflexivity|]. split; [now rewrite app_nil_r|].
    split; [now exists 0|]. split; [lia|]. intros p Hp. lia.
Qed.

Lemma disconnected_run evs : forall rt,
  accounted rt ->
  isConnected (client rt) = false ->
  no_reconnect evs = true ->
  isConnected (client (run JSON_parse JSON_stringify rt evs)) = false /\
  filter is_write (trace (run JSON_parse JSON_stringify rt evs))
  = filter is_write (trace rt) /\
  (exists k, responseQueue (client (run JSON_parse JSON_stringify rt evs))
             = skipn k (responseQueue (client rt))) /\
  promises rt <= promises (run JSON_parse JSON_stringify rt evs) /\
  (forall p, promises rt <= p < promises (run JSON_parse JSON_stringify rt evs) ->
             outcome p (trace (run JSON_parse JSON_stringify rt evs))
             = Some (Rejected not_connected_error)).
Proof.
  induction evs as [|ev evs IH]; intros rt Hacc Hc Hevs.
  - simpl. split; [assumption|]. split; [reflexivity|].
    split; [now exists 0|]. split; [lia|]. intros p Hp. lia.
  - simpl in Hevs. apply andb_true_iff in Hevs as [Hev Hevs].
    assert (Hne : ev <> SocketConnect) by (intros ->; discriminate).
    destruct (disconnected_step rt ev Hacc Hc Hne) as (S1 & S2 & [k1 S3] & S4 & S5).
    change (run JSON_parse JSON_stringify rt (ev :: evs))
      with (run JSON_parse JSON_stringify (step JSON_parse JSON_stringify rt ev) evs).
    destruct (IH (step JSON_parse JSON_stringify rt ev)
                 (step_accounted JSON_parse JSON_stringify rt ev Hacc) S1 Hevs)
      as (R1 & R2 & [k2 R3] & R4 & R5).
    split; [assumption|]. split; [congruence|].
    split; [exists (k2 + k1); now rewrite R3, S3, skipn_skipn|].
    split; [lia|]. intros p Hp.
    destruct (Nat.lt_ge_cases p (promises (step JSON_parse JSON_stringify rt ev)))
      as [Hlt|Hge].
    + destruct (run_trace_extends evs (step JSON_parse JSON_stringify rt ev))
        as [more ->].
      apply outcome_app_settled, S5. lia.
    + apply R5. lia.
Qed.

(** Once disconnected, always refused: when a run has left the client
    not connected (it never connected, or the socket reported an error or
    closed) and the socket does not connect again, then whatever follows,
    the client stays disconnected, nothing more is written to the socket,
    the queue only loses entries from its front, and every command
    dispatched from then on is rejected with the not-connected error. *)
Theorem no_dispatch_after_disconnect options_host before after :
  isConnected (client (run JSON_parse JSON_stringify (start options_host) before))
  = false ->
  no_reconnect after = true ->
  let rt := run JSON_parse JSON_stringify (start options_host) before in
  let rt' := run JSON_parse JSON_stringify rt after in
  isConnected (client rt') = false /\
  filter is_write (trace rt') = filter is_write (trace rt) /\
  (exists k, responseQueue (client rt') = skipn k (responseQueue (client rt))) /\
  (forall p, promises rt <= p < promises rt' ->
             outcome p (trace rt') = Some (Rejected not_connected_error)).
Proof.
  intros Hc Hevs rt rt'.
  assert (Hacc : accounted rt).
  { apply run_accounted. intros q. reflexivity. }
  destruct (disconnected_run after rt Hacc Hc Hevs) as (H1 & H2 & H3 & _ & H5).
  repeat split; assumption.
Qed.

(** An error nobody hears: when the socket reports an error while no
    entry is pending and the promise of [connect()] is already settled,
    the error changes the outcome of no promise at all; it is printed on
    the console and the client is marked disconnected, nothing else. *)
Theorem late_error_reaches_no_promise rt err :
  responseQueue (client rt) = [] ->
  connect_outcome (trace rt) <> None ->
  let rt' := step JSON_parse JSON_stringify rt (SocketError err) in
  (forall p, outcome p (trace rt') = outcome p (trace rt)) /\
  connect_outcome (trace rt') = connect_outcome (trace rt) /\
  settlements (trace rt') = settlements (trace rt) /\
  filter is_write (trace rt') = filter is_write (trace rt) /\
  isConnected (client rt') = false /\
  responseQueue (client rt') = [].
Proof.
  intros Hq Hconn rt'. unfold rt'. cbn [step advance trace client].
  destruct (on_error_logs (client rt) err) as (logs & Hs & Hc & Hsnd).
  destruct (on_error_frame (client rt) err) as [Hfst Hw].
  rewrite Hq in Hsnd, Hfst.
  assert (Hset : settlements (snd (on_error (client rt) err)) = []).
  { now rewrite Hsnd, settlements_app, Hs. }
  split; [|split; [|split; [|split; [|split]]]].
  - intros p. rewrite <- (outcome_settlements p (trace rt ++ _)).
    now rewrite settlements_app, Hset, app_nil_r, outcome_settlements.
  - destruct (connect_outcome (trace rt)) as [o|] eqn:E; [|contradiction].
    clear -E. revert E. induction (trace rt) as [|e tr IH]; simpl; [discriminate|].
    destruct e; auto.
  - now rewrite settlements_app, Hset, app_nil_r.
  - now rewrite filter_app, Hw, app_nil_r.
  - now rewrite Hfst.
  - now rewrite Hfst.
Qed.

End Frames.

(** ** Every entry is settled once, by its line or by an error *)

Lemma sorted_NoDup (q : list nat) : StronglySorted lt q -> NoDup q.
Proof.
  induction 1 as [|p q Hs IH Hp]; constructor; [|assumption].
  intros Hin. rewrite Forall_forall in Hp. apply Hp in Hin. lia.
Qed.

Lemma queued_In p q : In p q -> 1 <= queued p q.
Proof. intros H. now apply (count_occ_In Nat.eq_dec). Qed.

Lemma queued_not_In p q : ~ In p q -> queued p q = 0.
Proof. intros H. now apply (count_occ_not_In Nat.eq_dec). Qed.

Lemma nth_error_not_skipped {A} (l : list A) : forall i n p,
  NoDup l -> nth_error l i = Some p -> i < n -> ~ In p (skipn n l).
Proof.
  induction l as [|x l IH]; intros i n p Hnd Hp Hi.
  - now destruct i.
  - destruct n as [|n]; [lia|]. inversion Hnd as [|? ? Hx Hnd']; subst.
    cbn [skipn]. destruct i as [|i].
    + injection Hp as <-. intros Hin. apply Hx. eapply JsonFacts.in_skipn, Hin.
    + apply (IH i n p Hnd' Hp). lia.
Qed.

Lemma outcome_no_settlement p tr : settlements tr = [] -> outcome p tr = None.
Proof.
  intros H. induction tr as [|e tr IH]; [reflexivity|].
  unfold settlements in H. simpl in H.
  destruct e; simpl in *; try discriminate; auto.
Qed.

Section Settling.

Variable JSON_parse : JsString.t -> option value.
Variable JSON_stringify : value -> JsString.t.

Lemma run_in_dispatch_order evs : forall rt,
  in_dispatch_order rt -> in_dispatch_order (run JSON_parse JSON_stringify rt evs).
Proof.
  induction evs as [|ev evs IH]; intros rt H; [assumption|].
  apply IH, step_in_dispatch_order, H.
Qed.

Lemma step_buffer_no_lf rt ev :
  ~ In JsString.LF (streamBuffer (client rt)) ->
  ~ In JsString.LF (streamBuffer (client (step JSON_parse JSON_stringify rt ev))).
Proof.
  intros H. destruct ev as [payload| |chunk|err|]; cbn [step advance client].
  - unfold sendCommand. now destruct (isConnected (client rt)).
  - assumption.
  - apply handleStreamData_no_lf.
  - destruct (on_error_frame (client rt) err) as [-> _]. assumption.
  - assumption.
Qed.

Lemma run_buffer_no_lf evs : forall rt,
  ~ In JsString.LF (streamBuffer (client rt)) ->
  ~ In JsString.LF (streamBuffer (client (run JSON_parse JSON_stringify rt evs))).
Proof.
  induction evs as [|ev evs IH]; intros rt H; [assumption|].
  apply IH, step_buffer_no_lf, H.
Qed.

(** The verdicts of a list of lines on the entries they meet: the entry
    at a place gets the verdict of the line at that place. *)
Lemma outcome_verdicts queue : forall messages i p line,
  NoDup queue ->
  nth_error queue i = Some p ->
  nth_error messages i = Some line ->
  outcome p (map (fun pm => verdict JSON_parse (fst pm) (snd pm))
                 (combine queue messages))
  = Some match JSON_parse line with
         | Some json => Fulfilled json
         | None => Rejected malformed_error
         end.
Proof.
  induction queue as [|q queue IH]; intros messages i p line Hnd Hp Hl.
  - now destruct i.
  - destruct messages as [|m messages]; [now destruct i|].
    inversion Hnd as [|? ? Hq Hnd']; subst.
    cbn [combine map fst snd outcome]. destruct i as [|i].
    + injection Hp as <-. injection Hl as <-. unfold verdict.
      destruct (JSON_parse m); simpl; now rewrite Nat.eqb_refl.
    + assert (Hne : q <> p).
      { intros ->. apply Hq. eapply nth_error_In, Hp. }
      assert (Hs : settles p (verdict JSON_parse q m) = None).
      { unfold verdict. destruct (JSON_parse m); simpl;
          destruct (Nat.eqb_spec q p); congruence. }
      rewrite Hs. now apply (IH messages i p line).
Qed.

(** C8, amended: in every run of a new client, whatever commands, chunks,
    errors and closes arrive and in whatever order, no resolver is called
    twice, and a promise created by [sendCommand] has been resolved or
    rejected exactly once as soon as its entry is off the queue, and not
    at all while its entry, which is in the queue once, is waiting.
    Entries leave the queue in two ways, and then they are settled
    exactly once.  A transport error settles the oldest entry with that
    error, once, and only it: the entries behind it stay queued and
    unsettled, on a client that is no longer connected.  Data events, in
    any number and cut in any way, settle the oldest entries one by one:
    the i-th complete non-blank line of the text they add up to (each
    chunk decoded by itself) settles the i-th pending entry once,
    fulfilled with the parsed line or rejected with the malformed-JSON
    error when the line does not parse; the entries the lines do not
    reach stay queued and unsettled. *)
Theorem entry_settled_once_by_its_line_or_error options_host evs :
  let rt := run JSON_parse JSON_stringify (start options_host) evs in
  let queue := responseQueue (client rt) in
  (forall p, calls p (trace rt) + queued p queue
             = if Nat.ltb p (promises rt) then 1 else 0) /\
  (forall p, calls p (trace rt) <= 1) /\
  (forall err p rest,
     queue = p :: rest ->
     let rt' := step JSON_parse JSON_stringify rt (SocketError err) in
     settlements (trace rt') = settlements (trace rt) ++ [Reject p err] /\
     calls p (trace rt') = 1 /\
     outcome p (trace rt') = Some (Rejected err) /\
     responseQueue (client rt') = rest /\
     (forall q, In q rest -> calls q (trace rt') = 0) /\
     isConnected (client rt') = false) /\
  (forall chunks,
     let text := concat (map Buffer.toString chunks) in
     let messages :=
       filter (fun piece => negb (whitespace_only piece))
              (removelast (JsString.split (streamBuffer (client rt) ++ text))) in
     let rt' := run JSON_parse JSON_stringify rt (map SocketData chunks) in
     settlements (trace rt')
     = settlements (trace rt)
       ++ map (fun pm => verdict JSON_parse (fst pm) (snd pm)) (combine queue messages) /\
     (forall i p line,
        nth_error queue i = Some p ->
        nth_error messages i = Some line ->
        calls p (trace rt') = 1 /\
        outcome p (trace rt')
        = Some match JSON_parse line with
               | Some json => Fulfilled json
               | None => Rejected malformed_error
               end) /\
     responseQueue (client rt') = skipn (length messages) queue /\
     (forall q, In q (skipn (length messages) queue) -> calls q (trace rt') = 0)).
Proof.
  intros rt queue.
  assert (Hacc : accounted rt) by (apply run_accounted; intros q; reflexivity).
  assert (Hord : in_dispatch_order rt)
    by (apply run_in_dispatch_order; split; constructor).
  assert (Hbuf : ~ In JsString.LF (streamBuffer (client rt)))
    by (apply run_buffer_no_lf; intros []).
  destruct Hord as [Hsorted Hbound]. apply sorted_NoDup in Hsorted.
  fold queue in Hsorted, Hbound.
  assert (Hwaiting : forall p, In p queue ->
                       calls p (trace rt) = 0 /\ Nat.ltb p (promises rt) = true).
  { intros p Hin. pose proof (Hacc p) as H. apply queued_In in Hin.
    fold queue in H. destruct (Nat.ltb p (promises rt)); split; (reflexivity || lia). }
  split; [exact Hacc|]. split; [|split].
  - intros p. specialize (Hacc p). destruct (Nat.ltb p (promises rt)); lia.
  - intros err p rest Hq rt'.
    assert (Hacc' : accounted rt') by now apply step_accounted.
    destruct (on_error_logs (client rt) err) as (logs & Hlogs & _ & Heffects).
    destruct (on_error_frame (client rt) err) as [Hclient _].
    fold queue in Heffects. rewrite Hq in Heffects.
    assert (Htrace : trace rt' = trace rt ++ logs ++ [Reject p err]).
    { unfold rt'. cbn [step advance trace]. now rewrite Heffects. }
    assert (Hrest : responseQueue (client rt') = rest).
    { unfold rt'. cbn [step advance client]. rewrite Hclient.
      cbn [responseQueue set_responseQueue]. fold queue. now rewrite Hq. }
    assert (Hpromises : promises rt' = promises rt) by reflexivity.
    destruct (Hwaiting p) as [Hp0 Hplt]; [rewrite Hq; now left|].
    rewrite Hq in Hsorted. apply NoDup_cons_iff in Hsorted as [Hnotin _].
    split; [|split; [|split; [|split; [exact Hrest|split]]]].
    + now rewrite Htrace, !settlements_app, Hlogs.
    + pose proof (Hacc' p) as H. rewrite Hrest, Hpromises, Hplt in H.
      rewrite (queued_not_In _ _ Hnotin) in H. lia.
    + rewrite Htrace, outcome_app_unsettled by now apply outcome_none_calls.
      rewrite outcome_app_unsettled by now apply outcome_no_settlement.
      simpl. now rewrite Nat.eqb_refl.
    + intros q Hin. pose proof (Hacc' q) as H. rewrite Hrest in H.
      apply queued_In in Hin. destruct (Nat.ltb q (promises rt')); lia.
    + unfold rt'. cbn [step advance client]. now rewrite Hclient.
  - intros chunks text messages rt'.
    assert (Hacc' : accounted rt') by now apply run_accounted.
    assert (Hrt' : rt' = advance rt 0
              ({| host := host (client rt); isConnected := isConnected (client rt);
                  responseQueue := skipn (length messages) queue;
                  streamBuffer := last (JsString.split (streamBuffer (client rt) ++ text)) [] |},
               flat_map (fun pm => answer JSON_parse (fst pm) (snd pm))
                        (combine queue messages))).
    { unfold rt'. rewrite run_data, chunks_as_one by assumption.
      now rewrite handleStreamData_closed_form. }
    assert (Hqueue : responseQueue (client rt') = skipn (length messages) queue)
      by now rewrite Hrt'.
    assert (Hpromises : promises rt' = promises rt) by now rewrite Hrt'.
    assert (Hs : settlements (trace rt')
                 = settlements (trace rt)
                   ++ map (fun pm => verdict JSON_parse (fst pm) (snd pm))
                          (combine queue messages)).
    { rewrite Hrt'. cbn [advance trace snd].
      now rewrite settlements_app, settlements_answers. }
    split; [exact Hs|]. split; [|split; [exact Hqueue|]].
    + intros i p line Hp Hline.
      destruct (Hwaiting p) as [Hp0 Hplt]; [eapply nth_error_In, Hp|].
      assert (Hi : i < length messages) by (apply nth_error_Some; congruence).
      split.
      * pose proof (Hacc' p) as H. rewrite Hqueue, Hpromises, Hplt in H.
        rewrite (queued_not_In p (skipn (length messages) queue)) in H; [lia|].
        now apply (nth_error_not_skipped queue i).
      * rewrite <- outcome_settlements, Hs.
        rewrite outcome_app_unsettled
          by (rewrite outcome_settlements; now apply outcome_none_calls).
        now apply (outcome_verdicts queue messages i).
    + intros q Hin. pose proof (Hacc' q) as H. rewrite Hqueue in H.
      apply queued_In in Hin. destruct (Nat.ltb q (promises rt')); lia.
Qed.

End Settling.

(** ** [close()] *)










Section Closing.

Variable JSON_parse : JsString.t -> option value.
Variable JSON_stringify : value -> JsString.t.





Hypothesis JSON_parse_blank :
  forall s, JsString.is_blank s = true -> JSON_parse s = None.

(** Data events that make the client call nothing leave the session as
    it is, buffer apart. *)
Lemma quiet_chunks chunks : forall s c',
  for_each (handleStreamData JSON_parse) (client (runtime s))
           (map Buffer.toString chunks) = (c', []) ->
  let s' := session_run JSON_parse JSON_stringify s
                        (map (fun ch => Happens (SocketData ch)) chunks) in
  journal s' = journal s /\ closers s' = closers s /\
  client (runtime s') = c' /\ trace (runtime s') = trace (runtime s).
Proof.
  induction chunks as [|a chunks IH]; intros s c' H; cbv zeta.
  - simpl in *. injection H as <-. repeat split.
  - cbn [map for_each] in H.
    destruct (handleStreamData JSON_parse (client (runtime s)) (Buffer.toString a))
      as [c1 e1] eqn:H1.
    destruct (for_each (handleStreamData JSON_parse) c1 (map Buffer.toString chunks))
      as [c2 e2] eqn:H2.
    injection H as -> He. apply app_eq_nil in He as [-> ->].
    change (session_run JSON_parse JSON_stringify s
              (map (fun ch => Happens (SocketData ch)) (a :: chunks)))
      with (session_run JSON_parse JSON_stringify
              (session_step JSON_parse JSON_stringify s (Happens (SocketData a)))
              (map (fun ch => Happens (SocketData ch)) chunks)).
    set (s1 := session_step JSON_parse JSON_stringify s (Happens (SocketData a))).
    assert (Hs1 : journal s1 = journal s /\ closers s1 = closers s /\
                  client (runtime s1) = c1 /\ trace (runtime s1) = trace (runtime s)).
    { unfold s1. cbn [session_step runtime closers journal reaction step advance
                      client trace]. unfold on_data. rewrite H1.
      cbn [fst snd map resume]. now rewrite !app_nil_r. }
    destruct Hs1 as (J1 & C1 & R1 & T1).
    destruct (IH s1 c') as (J2 & C2 & R2 & T2); [now rewrite R1|].
    repeat split; congruence.
Qed.

(** Data events that make the client call one thing add that call to the
    journal, and what it wakes. *)
Lemma one_answer_chunks chunks : forall s c' e,
  for_each (handleStreamData JSON_parse) (client (runtime s))
           (map Buffer.toString chunks) = (c', [e]) ->
  let s' := session_run JSON_parse JSON_stringify s
                        (map (fun ch => Happens (SocketData ch)) chunks) in
  journal s' = journal s ++ Does e :: wake (closers s) (trace (runtime s)) e /\
  client (runtime s') = c'.
Proof.
  induction chunks as [|a chunks IH]; intros s c' e H; cbv zeta.
  - discriminate.
  - cbn [map for_each] in H.
    destruct (handleStreamData JSON_parse (client (runtime s)) (Buffer.toString a))
      as [c1 e1] eqn:H1.
    destruct (for_each (handleStreamData JSON_parse) c1 (map Buffer.toString chunks))
      as [c2 e2] eqn:H2.
    injection H as -> He.
    change (session_run JSON_parse JSON_stringify s
              (map (fun ch => Happens (SocketData ch)) (a :: chunks)))
      with (session_run JSON_parse JSON_stringify
              (session_step JSON_parse JSON_stringify s (Happens (SocketData a)))
              (map (fun ch => Happens (SocketData ch)) chunks)).
    set (s1 := session_step JSON_parse JSON_stringify s (Happens (SocketData a))).
    assert (Hs1 : journal s1 = journal s ++ map Does e1
                               ++ resume (closers s) (trace (runtime s)) e1 /\
                  closers s1 = closers s /\
                  client (runtime s1) = c1 /\
                  trace (runtime s1) = trace (runtime s) ++ e1).
    { unfold s1. cbn [session_step runtime closers journal reaction step advance
                      client trace]. unfold on_data. rewrite H1. now repeat split. }
    destruct Hs1 as (J1 & C1 & R1 & T1).
    destruct e1 as [|x e1].
    + simpl in He. subst e2.
      destruct (IH s1 c' e) as (J2 & R2); [now rewrite R1|].
      split; [|assumption].
      rewrite J2, J1, C1, T1. simpl. now rewrite !app_nil_r.
    + injection He as -> He. apply app_eq_nil in He as [-> ->].
      destruct (quiet_chunks chunks s1 c') as (J2 & _ & R2 & _); [now rewrite R1|].
      split; [|assumption].
      rewrite J2, J1. cbn [map resume]. now rewrite app_nil_r.
Qed.

(** A graceful close: a new client connects and [close()] is called with
    nothing pending; the answer to the [exit] request then arrives, cut
    into chunks in any way.  The session writes the request, resolves its
    promise with the parsed answer, calls [socket.end()], prints the
    farewell and resolves [close()], in this order.  The client still
    counts as connected afterwards: [close()] does not clear
    [isConnected], only a later ['close'] or ['error'] event does. *)
Theorem close_round_trip options_host chunks line v :
  well_formed JSON_parse line v ->
  concat (map Buffer.toString chunks) = line ++ [JsString.LF] ->
  let s := session_run JSON_parse JSON_stringify (session_start options_host)
             (Happens SocketConnect :: Close
                :: map (fun ch => Happens (SocketData ch)) chunks) in
  journal s
  = map Does (snd (on_connect (new_XDBClient options_host)))
    ++ [Does (SocketWrite (JSON_stringify exit_request ++ [JsString.LF]));
        Does (Resolve 0 v);
        SocketEnd;
        Does (ConsoleLog (Formatted INFO (str "Session terminated gracefully.")));
        CloseResolve (Some 0)] /\
  isConnected (client (runtime s)) = true /\
  responseQueue (client (runtime s)) = [].
Proof.
  intros Hwf Hcat. cbv zeta.
  change (session_run JSON_parse JSON_stringify (session_start options_host)
            (Happens SocketConnect :: Close
               :: map (fun ch => Happens (SocketData ch)) chunks))
    with (session_run JSON_parse JSON_stringify
            (session_step JSON_parse JSON_stringify
               (session_step JSON_parse JSON_stringify (session_start options_host)
                             (Happens SocketConnect)) Close)
            (map (fun ch => Happens (SocketData ch)) chunks)).
  set (s2 := session_step JSON_parse JSON_stringify
               (session_step JSON_parse JSON_stringify (session_start options_host)
                             (Happens SocketConnect)) Close).
  assert (Hdata : for_each (handleStreamData JSON_parse) (client (runtime s2))
                           (map Buffer.toString chunks)
                  = (set_responseQueue [] (client (runtime s2)), [Resolve 0 v])).
  { apply (fifo_any_chunking JSON_parse JSON_parse_blank [line] [v] [0] []).
    - constructor; [assumption|constructor].
    - reflexivity.
    - reflexivity.
    - reflexivity.
    - rewrite Hcat. unfold stream_of. simpl. now rewrite app_nil_r. }
  destruct (one_answer_chunks chunks s2 _ _ Hdata) as [HJ HR].
  rewrite HJ, HR. split; [|split]; reflexivity.
Qed.

End Closing.

(** ** [upsert] *)

Section Upsert.

Variable JSON_stringify : value -> JsString.t.

(** On a connected client [upsert(collection, id, data)] queues its
    promise and writes one line, the request with the fields [action]
    (with the value [upsert]), [collection], [id] and [data], in this
    order.  Its [id] is the caller's string, and [null] both when the
    caller gives [null] and when the caller gives nothing, never left
    out; its [data] is the caller's object without the property [_id],
    every other property kept. *)
Theorem upsert_sends_null_id_and_clean_data p collection id data c :
  isConnected c = true ->
  upsert JSON_stringify p collection id data c =
  (set_responseQueue (responseQueue c ++ [p]) c,
   [SocketWrite
      (JSON_stringify
         (JObject [(str "action", JString (str "upsert"));
                   (str "collection", JString collection);
                   (str "id", match id with
                              | IdString s => JString s
                              | _ => JNull
                              end);
                   (str "data", JObject (without_id data))])
       ++ [JsString.LF])]) /\
  get (str "_id") (without_id data) = None /\
  (forall k, k <> str "_id" -> get k (without_id data) = get k data).
Proof.
  intros H. split; [|split].
  - unfold upsert, upsert_request, sendCommand. rewrite H. now destruct id.
  - apply get_filter_same.
  - intros k. apply get_filter_other.
Qed.

End Upsert.

(** ** What goes out on the socket *)

Lemma written_app tr1 tr2 : written (tr1 ++ tr2) = written tr1 ++ written tr2.
Proof. apply flat_map_app. Qed.

Lemma written_filter tr : written (filter is_write tr) = written tr.
Proof.
  induction tr as [|e tr IH]; [reflexivity|].
  destruct e; simpl; rewrite ?IH; reflexivity.
Qed.

Section Wire.

Variable JSON_parse : JsString.t -> option value.
Variable JSON_stringify : value -> JsString.t.

Lemma written_writes payloads :
  written (writes JSON_stringify payloads) = stream_of (map JSON_stringify payloads).
Proof.
  induction payloads as [|a payloads IH]; [reflexivity|].
  change (written (writes JSON_stringify (a :: payloads)))
    with ((JSON_stringify a ++ [JsString.LF])
          ++ written (writes JSON_stringify payloads)).
  now rewrite IH.
Qed.

Lemma step_writes rt ev :
  filter is_write (trace (step JSON_parse JSON_stringify rt ev))
  = filter is_write (trace rt)
    ++ writes JSON_stringify (accepted JSON_parse JSON_stringify rt [ev]).
Proof.
  destruct ev as [payload| |chunk|err|]; cbn [step accepted]; unfold advance;
    cbn [trace]; rewrite filter_app.
  - unfold sendCommand. destruct (isConnected (client rt)); reflexivity.
  - unfold on_connect. destruct (client rt); reflexivity.
  - destruct (handleStreamData_frame JSON_parse (client rt) (Buffer.toString chunk))
      as (k & _ & H2).
    unfold on_data. now rewrite (answering_no_write _ H2).
  - destruct (on_error_frame (client rt) err) as [_ H2]. now rewrite H2.
  - reflexivity.
Qed.

Lemma run_writes evs : forall rt,
  filter is_write (trace (run JSON_parse JSON_stringify rt evs))
  = filter is_write (trace rt)
    ++ writes JSON_stringify (accepted JSON_parse JSON_stringify rt evs).
Proof.
  induction evs as [|ev evs IH]; intros rt.
  - simpl. now rewrite app_nil_r.
  - change (run JSON_parse JSON_stringify rt (ev :: evs))
      with (run JSON_parse JSON_stringify (step JSON_parse JSON_stringify rt ev) evs).
    rewrite IH, step_writes, <- app_assoc. f_equal.
    cbn [accepted]. rewrite app_nil_r. unfold writes. now rewrite map_app.
Qed.

(** One request, one line: provided [JSON.stringify] puts no line feed
    in its output, in every run of a new client the socket is written to
    exactly once for each command dispatched while the client is
    connected, in dispatch order, each time with the serialised payload
    and one line feed; so the text the socket carries, cut at the line
    feeds, is the list of the serialised payloads of those commands,
    with nothing left over. Commands refused for want of a connection
    leave no trace on the wire. *)
Theorem each_request_is_one_line options_host evs :
  (forall v, is_line (JSON_stringify v)) ->
  let rt := run JSON_parse JSON_stringify (start options_host) evs in
  let sent := accepted JSON_parse JSON_stringify (start options_host) evs in
  filter is_write (trace rt) = writes JSON_stringify sent /\
  JsString.split (written (trace rt)) = map JSON_stringify sent ++ [[]].
Proof.
  intros Hline rt sent.
  assert (Hw : filter is_write (trace rt) = writes JSON_stringify sent)
    by (subst rt sent; now rewrite run_writes).
  split; [exact Hw|].
  rewrite <- written_filter, Hw, written_writes.
  rewrite <- (app_nil_r (stream_of _)). apply split_stream_of.
  - apply Forall_forall. intros l Hl. apply in_map_iff in Hl as (v & <- & _).
    apply Hline.
  - intros [].
Qed.

End Wire.

(** ** The client on concrete inputs, with [Json.parse] and [Json.stringify] *)

(** C1: one command is pending and its response, the string "é" as a JSON
    text, arrives as the five bytes 22 C3 A9 22 0A.  Delivered in one
    data event the promise resolves with the string "é" (U+00E9).
    Delivered as 22 C3 followed by A9 22 0A, the cut falling inside the
    two-byte character, each chunk is decoded by itself and the promise
    resolves with two U+FFFD instead. *)
Theorem split_character_corrupts_response :
  Buffer.toString [34; 195; 169; 34; 10]%N = [34; 233; 34; 10]%N /\
  well_formed Json.parse [34; 233; 34]%N (JString [233%N]) /\
  outcome 0 (trace (run Json.parse Json.stringify (start None)
                        [SocketConnect; Command snapshot_request;
                         SocketData [34; 195; 169; 34; 10]%N]))
  = Some (Fulfilled (JString [233%N])) /\
  outcome 0 (trace (run Json.parse Json.stringify (start None)
                        [SocketConnect; Command snapshot_request;
                         SocketData [34; 195]%N; SocketData [169; 34; 10]%N]))
  = Some (Fulfilled (JString [65533%N; 65533%N])).
Proof.
  repeat split; try reflexivity.
  simpl. intros [H|[H|[H|[]]]]; discriminate.
Qed.

(** C3, as stated, fails: after two commands an ['error'] event leaves
    the second entry in the queue, and a ['close'] event leaves a pending
    entry where it is. *)
Lemma error_and_close_leave_entries_queued :
  responseQueue (client (run Json.parse Json.stringify (start None)
                             [SocketConnect; Command snapshot_request;
                              Command snapshot_request;
                              SocketError (system_error "ECONNRESET" "read ECONNRESET")]))
  = [1] /\
  responseQueue (client (run Json.parse Json.stringify (start None)
                             [SocketConnect; Command snapshot_request; SocketClose]))
  = [0].
Proof. split; reflexivity. Qed.

(** C8, as stated, fails: two commands are pending when the socket
    errors; the second promise has been neither resolved nor rejected,
    and the client is no longer connected. *)
Lemma second_entry_never_settled_after_error :
  let rt := run Json.parse Json.stringify (start None)
                [SocketConnect; Command snapshot_request; Command snapshot_request;
                 SocketError (system_error "ECONNRESET" "read ECONNRESET"); SocketClose] in
  promises rt = 2 /\
  calls 0 (trace rt) = 1 /\
  calls 1 (trace rt) = 0 /\
  outcome 1 (trace rt) = None /\
  isConnected (client rt) = false.
Proof. repeat split; reflexivity. Qed.

(** An ['error'] event on a queue of three entries. *)
Lemma error_fails_oldest_only_witness :
  responseQueue (connected_client [3; 4; 5] []) = 3 :: [4; 5] /\
  (responseQueue (fst (on_error (connected_client [3; 4; 5] [])
                                (system_error "ECONNRESET" "read ECONNRESET")))
   = [4; 5] /\
   settlements (snd (on_error (connected_client [3; 4; 5] [])
                              (system_error "ECONNRESET" "read ECONNRESET")))
   = [Reject 3 (system_error "ECONNRESET" "read ECONNRESET")] /\
   connect_outcome (snd (on_error (connected_client [3; 4; 5] [])
                                  (system_error "ECONNRESET" "read ECONNRESET")))
   = None /\
   streamBuffer (fst (on_error (connected_client [3; 4; 5] [])
                               (system_error "ECONNRESET" "read ECONNRESET")))
   = streamBuffer (connected_client [3; 4; 5] [])).
Proof.
  split; [reflexivity|].
  exact (error_fails_oldest_only (connected_client [3; 4; 5] [])
           (system_error "ECONNRESET" "read ECONNRESET") 3 [4; 5] eq_refl).
Defined.

(** [count('users')] on a client that never connected. *)
Lemma sendCommand_not_connected_witness :
  isConnected (new_XDBClient None) = false /\
  sendCommand Json.stringify 0 (count_request (str "users")) (new_XDBClient None)
  = (new_XDBClient None, [Reject 0 not_connected_error]).
Proof.
  split; [reflexivity|].
  destruct (sendCommand_not_connected Json.stringify 0 (count_request (str "users"))
              (new_XDBClient None) eq_refl) as (H1 & H2 & _).
  now rewrite (surjective_pairing (sendCommand _ _ _ _)), H1, H2.
Defined.



(** [update('users', 'id123', { _id: 'x', status: 'online' })]. *)
Lemma update_strips_id_witness :
  isConnected (connected_client [] []) = true /\
  update Json.stringify 0 (str "users") (str "id123")
         [(str "_id", JString (str "x")); (str "status", JString (str "online"))]
         (connected_client [] [])
  = (connected_client [0] [],
     [SocketWrite
        (Json.stringify
           (JObject [(str "action", JString (str "update"));
                     (str "collection", JString (str "users"));
                     (str "id", JString (str "id123"));
                     (str "data", JObject [(str "status", JString (str "online"))])])
         ++ [JsString.LF])]).
Proof.
  split; [reflexivity|].
  destruct (update_strips_id Json.stringify 0 (str "users") (str "id123")
              [(str "_id", JString (str "x")); (str "status", JString (str "online"))]
              (connected_client [] []) eq_refl) as [H _].
  rewrite H. reflexivity.
Defined.

(** Two [find] commands, and their responses cut after ten bytes. *)
Lemma responses_resolve_in_dispatch_order_witness :
  (forall s, JsString.is_blank s = true -> Json.parse s = None) /\
  Forall2 (well_formed Json.parse)
          [Json.stringify (ok_response 1); Json.stringify (ok_response 2)]
          [ok_response 1; ok_response 2] /\
  concat (map Buffer.toString
              [firstn 10 (stream_of [Json.stringify (ok_response 1);
                                     Json.stringify (ok_response 2)]);
               skipn 10 (stream_of [Json.stringify (ok_response 1);
                                    Json.stringify (ok_response 2)])])
  = stream_of [Json.stringify (ok_response 1); Json.stringify (ok_response 2)] /\
  settlements
    (trace (run Json.parse Json.stringify (start None)
                (SocketConnect
                   :: map Command [find_request (str "users") None None;
                                   find_request (str "admins") None None]
                   ++ map SocketData
                        [firstn 10 (stream_of [Json.stringify (ok_response 1);
                                               Json.stringify (ok_response 2)]);
                         skipn 10 (stream_of [Json.stringify (ok_response 1);
                                              Json.stringify (ok_response 2)])])))
  = [Resolve 0 (ok_response 1); Resolve 1 (ok_response 2)].
Proof.
  assert (Hwf : Forall2 (well_formed Json.parse)
                        [Json.stringify (ok_response 1); Json.stringify (ok_response 2)]
                        [ok_response 1; ok_response 2]).
  { repeat constructor; vm_compute; intros H;
      repeat (destruct H as [H|H]; [discriminate|]); exact H. }
  split; [exact JsonFacts.parse_blank|].
  split; [exact Hwf|]. split; [reflexivity|].
  destruct (responses_resolve_in_dispatch_order Json.parse Json.stringify
              JsonFacts.parse_blank None
              [find_request (str "users") None None;
               find_request (str "admins") None None]
              [Json.stringify (ok_response 1); Json.stringify (ok_response 2)]
              [ok_response 1; ok_response 2]
              [firstn 10 (stream_of [Json.stringify (ok_response 1);
                                     Json.stringify (ok_response 2)]);
               skipn 10 (stream_of [Json.stringify (ok_response 1);
                                    Json.stringify (ok_response 2)])]
              Hwf eq_refl eq_refl) as [H _].
  exact H.
Defined.

(** Two [count] commands, and their responses in four chunks. *)
Lemma ascii_responses_resolve_in_dispatch_order_witness :
  (forall s, JsString.is_blank s = true -> Json.parse s = None) /\
  Forall2 (well_formed Json.parse) [str "[1,2]"; str "true"]
          [JArray [JNumber 1 0; JNumber 2 0]; JBool true] /\
  forallb Buffer.is_ascii
          [Buffer.of_ascii "[1"; Buffer.of_ascii ",2]" ++ [JsString.LF] ++ Buffer.of_ascii "tr";
           Buffer.of_ascii "ue"; [JsString.LF]] = true /\
  settlements
    (trace (run Json.parse Json.stringify (start None)
                (SocketConnect
                   :: map Command [count_request (str "users"); count_request (str "logs")]
                   ++ map SocketData
                        [Buffer.of_ascii "[1";
                         Buffer.of_ascii ",2]" ++ [JsString.LF] ++ Buffer.of_ascii "tr";
                         Buffer.of_ascii "ue"; [JsString.LF]])))
  = [Resolve 0 (JArray [JNumber 1 0; JNumber 2 0]); Resolve 1 (JBool true)].
Proof.
  assert (Hwf : Forall2 (well_formed Json.parse) [str "[1,2]"; str "true"]
                        [JArray [JNumber 1 0; JNumber 2 0]; JBool true]).
  { repeat constructor; vm_compute; intros H;
      repeat (destruct H as [H|H]; [discriminate|]); exact H. }
  split; [exact JsonFacts.parse_blank|].
  split; [exact Hwf|]. split; [reflexivity|].
  destruct (ascii_responses_resolve_in_dispatch_order Json.parse Json.stringify
              JsonFacts.parse_blank None
              [count_request (str "users"); count_request (str "logs")]
              [str "[1,2]"; str "true"]
              [JArray [JNumber 1 0; JNumber 2 0]; JBool true]
              [Buffer.of_ascii "[1";
               Buffer.of_ascii ",2]" ++ [JsString.LF] ++ Buffer.of_ascii "tr";
               Buffer.of_ascii "ue"; [JsString.LF]]
              Hwf eq_refl eq_refl eq_refl) as [H _].
  exact H.
Defined.

(** Three chunks on a buffer that already holds the start of a line. *)
Lemma chunking_is_immaterial_witness :
  ~ In JsString.LF (streamBuffer (connected_client [0; 1] (str "[1"))) /\
  for_each (handleStreamData Json.parse) (connected_client [0; 1] (str "[1"))
           [str ",2"; str "]" ++ [JsString.LF] ++ str "nul"; str "l" ++ [JsString.LF] ++ str "x"]
  = (connected_client [] (str "x"),
     [Resolve 0 (JArray [JNumber 1 0; JNumber 2 0]); Resolve 1 JNull]).
Proof.
  assert (Hbuf : ~ In JsString.LF (streamBuffer (connected_client [0; 1] (str "[1")))).
  { simpl. intros H. repeat (destruct H as [H|H]; [discriminate|]). exact H. }
  split; [exact Hbuf|].
  rewrite (chunking_is_immaterial Json.parse (connected_client [0; 1] (str "[1"))
             [str ",2"; str "]" ++ [JsString.LF] ++ str "nul";
              str "l" ++ [JsString.LF] ++ str "x"] Hbuf).
  reflexivity.
Defined.

(** A command, its response in two chunks, then a second command and its
    response. *)
Lemma interleaved_responses_resolve_in_dispatch_order_witness :
  (forall s, JsString.is_blank s = true -> Json.parse s = None) /\
  answers_follow_requests 0
    [Command (count_request (str "users")); SocketData (Buffer.of_ascii "[1");
     SocketData (Buffer.of_ascii ",2]" ++ [JsString.LF]);
     Command (count_request (str "logs"));
     SocketData (Buffer.of_ascii "true" ++ [JsString.LF])] /\
  Forall2 (well_formed Json.parse) [str "[1,2]"; str "true"]
          [JArray [JNumber 1 0; JNumber 2 0]; JBool true] /\
  settlements
    (trace (run Json.parse Json.stringify (start None)
                [SocketConnect;
                 Command (count_request (str "users")); SocketData (Buffer.of_ascii "[1");
                 SocketData (Buffer.of_ascii ",2]" ++ [JsString.LF]);
                 Command (count_request (str "logs"));
                 SocketData (Buffer.of_ascii "true" ++ [JsString.LF])]))
  = [Resolve 0 (JArray [JNumber 1 0; JNumber 2 0]); Resolve 1 (JBool true)].
Proof.
  assert (Hwf : Forall2 (well_formed Json.parse) [str "[1,2]"; str "true"]
                        [JArray [JNumber 1 0; JNumber 2 0]; JBool true]).
  { repeat constructor; vm_compute; intros H;
      repeat (destruct H as [H|H]; [discriminate|]); exact H. }
  assert (Hans : answers_follow_requests 0
    [Command (count_request (str "users")); SocketData (Buffer.of_ascii "[1");
     SocketData (Buffer.of_ascii ",2]" ++ [JsString.LF]);
     Command (count_request (str "logs"));
     SocketData (Buffer.of_ascii "true" ++ [JsString.LF])]).
  { vm_compute. repeat split; repeat constructor. }
  split; [exact JsonFacts.parse_blank|].
  split; [exact Hans|]. split; [exact Hwf|].
  destruct (interleaved_responses_resolve_in_dispatch_order Json.parse Json.stringify
              JsonFacts.parse_blank None _
              [str "[1,2]"; str "true"]
              [JArray [JNumber 1 0; JNumber 2 0]; JBool true]
              Hans eq_refl Hwf eq_refl) as [H _].
  exact H.
Defined.

(** A line arrives for nobody, in the middle of other text. *)
Lemma surplus_lines_are_dropped_witness :
  responseQueue (connected_client [] (str "tr")) = [] /\
  handleStreamData Json.parse (connected_client [] (str "tr"))
                   (str "ue" ++ [JsString.LF] ++ str "[1")
  = (connected_client [] (str "[1"), []).
Proof.
  split; [reflexivity|].
  rewrite (surplus_lines_are_dropped Json.parse (connected_client [] (str "tr"))
             (str "ue" ++ [JsString.LF] ++ str "[1") eq_refl).
  reflexivity.
Defined.

(** Two answers with an empty line and a line of blanks between them. *)
Lemma blank_lines_are_noops_witness :
  streamBuffer (connected_client [0; 1] []) = [] /\
  Forall is_line [str "true"; []; str "  "; str "null"] /\
  is_line (str "[") /\
  handleStreamData Json.parse (connected_client [0; 1] [])
                   (stream_of [str "true"; []; str "  "; str "null"] ++ str "[")
  = (connected_client [] (str "["), [Resolve 0 (JBool true); Resolve 1 JNull]).
Proof.
  assert (Hls : Forall is_line [str "true"; []; str "  "; str "null"]).
  { repeat constructor; intros H; simpl in H;
      repeat (destruct H as [H|H]; [discriminate|]); exact H. }
  assert (Hp : is_line (str "[")).
  { intros H; simpl in H. repeat (destruct H as [H|H]; [discriminate|]). exact H. }
  split; [reflexivity|]. split; [exact Hls|]. split; [exact Hp|].
  rewrite (blank_lines_are_noops Json.parse (connected_client [0; 1] [])
             [str "true"; []; str "  "; str "null"] (str "[") eq_refl Hls Hp).
  reflexivity.
Defined.

(** Three answers for three entries, the second one malformed, in two
    chunks; a fourth entry waits behind. *)
Lemma each_line_answers_its_own_request_witness :
  Forall is_message [str "true"; str "NOT_JSON"; str "null"] /\
  settlements
    (snd (for_each (handleStreamData Json.parse) (connected_client [4; 5; 6; 7] [])
                   [str "true" ++ [JsString.LF] ++ str "NOT_";
                    str "JSON" ++ [JsString.LF] ++ str "null" ++ [JsString.LF]]))
  = [Resolve 4 (JBool true); Reject 5 malformed_error; Resolve 6 JNull] /\
  responseQueue
    (fst (for_each (handleStreamData Json.parse) (connected_client [4; 5; 6; 7] [])
                   [str "true" ++ [JsString.LF] ++ str "NOT_";
                    str "JSON" ++ [JsString.LF] ++ str "null" ++ [JsString.LF]]))
  = [7].
Proof.
  assert (Hls : Forall is_message [str "true"; str "NOT_JSON"; str "null"]).
  { repeat constructor; try reflexivity; intros H; simpl in H;
      repeat (destruct H as [H|H]; [discriminate|]); exact H. }
  split; [exact Hls|].
  destruct (each_line_answers_its_own_request Json.parse
              [str "true"; str "NOT_JSON"; str "null"] [4; 5; 6] [7]
              (connected_client [4; 5; 6; 7] [])
              [str "true" ++ [JsString.LF] ++ str "NOT_";
               str "JSON" ++ [JsString.LF] ++ str "null" ++ [JsString.LF]]
              Hls eq_refl eq_refl eq_refl eq_refl) as [H1 H2].
  split; [exact H2|]. rewrite H1. reflexivity.
Defined.

(** The socket errors with one command pending; what follows finds the
    client disconnected. *)
Lemma no_dispatch_after_disconnect_witness :
  isConnected
    (client (run Json.parse Json.stringify (start None)
                 [SocketConnect; Command snapshot_request;
                  SocketError (system_error "ECONNRESET" "read ECONNRESET")]))
  = false /\
  no_reconnect [Command (count_request (str "users")); SocketData (Buffer.of_ascii "1");
                Command snapshot_request; SocketClose] = true /\
  outcome 2
    (trace (run Json.parse Json.stringify
                (run Json.parse Json.stringify (start None)
                     [SocketConnect; Command snapshot_request;
                      SocketError (system_error "ECONNRESET" "read ECONNRESET")])
                [Command (count_request (str "users")); SocketData (Buffer.of_ascii "1");
                 Command snapshot_request; SocketClose]))
  = Some (Rejected not_connected_error).
Proof.
  split; [reflexivity|]. split; [reflexivity|].
  destruct (no_dispatch_after_disconnect Json.parse Json.stringify None
              [SocketConnect; Command snapshot_request;
               SocketError (system_error "ECONNRESET" "read ECONNRESET")]
              [Command (count_request (str "users")); SocketData (Buffer.of_ascii "1");
               Command snapshot_request; SocketClose]
              eq_refl eq_refl) as (_ & _ & _ & H).
  apply H. simpl. lia.
Defined.

(** A reset long after the connection was made, with nothing pending. *)
Lemma late_error_reaches_no_promise_witness :
  responseQueue
    (client (run Json.parse Json.stringify (start None) [SocketConnect])) = [] /\
  connect_outcome
    (trace (run Json.parse Json.stringify (start None) [SocketConnect])) <> None /\
  connect_outcome
    (trace (step Json.parse Json.stringify
                 (run Json.parse Json.stringify (start None) [SocketConnect])
                 (SocketError (system_error "ECONNRESET" "read ECONNRESET"))))
  = Some None.
Proof.
  assert (Hc : connect_outcome
                 (trace (run Json.parse Json.stringify (start None) [SocketConnect]))
               <> None) by discriminate.
  split; [reflexivity|]. split; [exact Hc|].
  destruct (late_error_reaches_no_promise Json.parse Json.stringify
              (run Json.parse Json.stringify (start None) [SocketConnect])
              (system_error "ECONNRESET" "read ECONNRESET") eq_refl Hc)
    as (_ & H & _).
  rewrite H. reflexivity.
Defined.

(** [upsert('users', undefined, { _id: 'x', points: 50 })]. *)
Lemma upsert_sends_null_id_and_clean_data_witness :
  isConnected (connected_client [] []) = true /\
  upsert Json.stringify 0 (str "users") IdUndefined
         [(str "_id", JString (str "x")); (str "points", JNumber 50 0)]
         (connected_client [] [])
  = (connected_client [0] [],
     [SocketWrite
        (Json.stringify
           (JObject [(str "action", JString (str "upsert"));
                     (str "collection", JString (str "users"));
                     (str "id", JNull);
                     (str "data", JObject [(str "points", JNumber 50 0)])])
         ++ [JsString.LF])]).
Proof.
  split; [reflexivity|].
  destruct (upsert_sends_null_id_and_clean_data Json.stringify 0 (str "users")
              IdUndefined
              [(str "_id", JString (str "x")); (str "points", JNumber 50 0)]
              (connected_client [] []) eq_refl) as [H _].
  rewrite H. reflexivity.
Defined.

(** The answer to [exit] arrives in two chunks. *)
Lemma close_round_trip_witness :
  (forall s, JsString.is_blank s = true -> Json.parse s = None) /\
  well_formed Json.parse (Json.stringify (ok_response 0)) (ok_response 0) /\
  ends (journal
          (session_run Json.parse Json.stringify (session_start None)
             (Happens SocketConnect :: Close
                :: map (fun ch => Happens (SocketData ch))
                     [firstn 10 (Json.stringify (ok_response 0));
                      skipn 10 (Json.stringify (ok_response 0)) ++ [JsString.LF]])))
  = 1 /\
  isConnected
    (client (runtime
       (session_run Json.parse Json.stringify (session_start None)
          (Happens SocketConnect :: Close
             :: map (fun ch => Happens (SocketData ch))
                  [firstn 10 (Json.stringify (ok_response 0));
                   skipn 10 (Json.stringify (ok_response 0)) ++ [JsString.LF]]))))
  = true.
Proof.
  assert (Hwf : well_formed Json.parse (Json.stringify (ok_response 0)) (ok_response 0)).
  { split; [|reflexivity]. vm_compute. intros H.
    repeat (destruct H as [H|H]; [discriminate|]). exact H. }
  split; [exact JsonFacts.parse_blank|]. split; [exact Hwf|].
  destruct (close_round_trip Json.parse Json.stringify JsonFacts.parse_blank None
              [firstn 10 (Json.stringify (ok_response 0));
               skipn 10 (Json.stringify (ok_response 0)) ++ [JsString.LF]]
              (Json.stringify (ok_response 0)) (ok_response 0) Hwf eq_refl)
    as (HJ & HC & _).
  split; [rewrite HJ; reflexivity|exact HC].
Defined.

Lemma each_request_is_one_line_witness :
  (forall v, is_line (Json.stringify v)) /\
  JsString.split
    (written (trace (run Json.parse Json.stringify (start None)
       [Command (JString (str "early")); SocketConnect;
        Command (JString (str "a" ++ [JsString.LF] ++ str "b"));
        SocketClose; Command JNull])))
  = [Json.stringify (JString (str "a" ++ [JsString.LF] ++ str "b")); []].
Proof.
  split; [exact JsonFacts.stringify_no_lf|].
  exact (proj2 (each_request_is_one_line Json.parse Json.stringify None
                  [Command (JString (str "early")); SocketConnect;
                   Command (JString (str "a" ++ [JsString.LF] ++ str "b"));
                   SocketClose; Command JNull]
                  JsonFacts.stringify_no_lf)).
Defined.
